(** * zfs-win: the block reader (src/zfs-win/BlockReader.cpp)

    A shallow embedding of [ZFS::BlockReader], [ZFS::BlockStream] and
    [ZFS::BlockFile], and the properties of the block-resolution engine
    that follow from the code.

    Conventions of the embedding.
    - [uint64_t] and [size_t] values are numbers in [N]; every arithmetic
      operation of the source on them is followed by its reduction modulo
      [2^64] (an x64 build, where both types are 64 bits wide).  Lengths of
      vectors and positions inside a buffer are in [nat].
    - [std::vector<uint8_t>] is [list byte]; [std::list<blkptr_t*>] is
      [list blkptr_t].  The nodes of [m_bpl] are allocated one per list
      position and never shared, so the pointer kept in [m_cache.bp] is
      modelled by the position of the node in the leaf index.
    - A member function is a function of the fields it reads, returning the
      fields it writes, inside the [outcome] monad: a run either completes
      ([Done], with the device reads it issued, in order), stops on a failed
      [ASSERT] or on an access the C++ standard leaves undefined ([Crash]),
      or exhausts the fuel that bounds its [while] loops ([OutOfFuel]).
    - Everything the translation unit takes from headers that are not part
      of it (assertion macro, record size, codecs, checksums) is a field of
      the class [Externals]. *)

From Stdlib Require Import NArith Lia.
From Stdlib Require Strings.Byte.
From stdpp Require Import base numbers list.

Abbreviation byte := Byte.byte.

(** ** Machine integers *)

Definition wrap64 (x : N) : N := (x mod 2 ^ 64)%N.

(** [a + b], [a - b] and [a << k] on 64-bit unsigned operands. *)
Definition add64 (a b : N) : N := wrap64 (a + b).
Definition sub64 (a b : N) : N := wrap64 (a + 2 ^ 64 - wrap64 b).
Definition shl64 (a k : N) : N := wrap64 (N.shiftl a k).

(** ** On-disk records *)

(** [dva_t]: one physical copy of a block. *)
Record dva_t := { vdev : N; offset : N; gang : N }.

(** [cksum_t]: four 64-bit words. *)
Definition cksum_t : Type := N * N * N * N.

(** The checksum codes named by the [switch] of [Verify]; [ZIO_CHECKSUM_other]
    stands for every value of the [uint8_t] field that matches no label. *)
Inductive zio_checksum :=
| ZIO_CHECKSUM_ON
| ZIO_CHECKSUM_OFF
| ZIO_CHECKSUM_LABEL
| ZIO_CHECKSUM_GANG_HEADER
| ZIO_CHECKSUM_ZILOG
| ZIO_CHECKSUM_FLETCHER_2
| ZIO_CHECKSUM_FLETCHER_4
| ZIO_CHECKSUM_SHA256
| ZIO_CHECKSUM_ZILOG2
| ZIO_CHECKSUM_other (code : N).

(** The compression codes named by the [switch] of [Decompress]. *)
Inductive zio_compress :=
| ZIO_COMPRESS_ON
| ZIO_COMPRESS_OFF
| ZIO_COMPRESS_LZJB
| ZIO_COMPRESS_EMPTY
| ZIO_COMPRESS_GZIP_1
| ZIO_COMPRESS_GZIP_2
| ZIO_COMPRESS_GZIP_3
| ZIO_COMPRESS_GZIP_4
| ZIO_COMPRESS_GZIP_5
| ZIO_COMPRESS_GZIP_6
| ZIO_COMPRESS_GZIP_7
| ZIO_COMPRESS_GZIP_8
| ZIO_COMPRESS_GZIP_9
| ZIO_COMPRESS_ZLE
| ZIO_COMPRESS_other (code : N).

(** [blkptr_t]; [blk_dva] is the array of three addresses. *)
Record blkptr_t := {
  blk_dva : dva_t * dva_t * dva_t;
  psize : N;
  lsize : N;
  type : N;
  lvl : N;
  cksum_type : zio_checksum;
  comp_type : zio_compress;
  cksum : cksum_t
}.

(** [blk_dva[0]], [blk_dva[1]], [blk_dva[2]], as [for(int i = 0; i < 3; i++)]
    meets them. *)
Definition dvas (bp : blkptr_t) : list dva_t :=
  let '(a0, a1, a2) := blk_dva bp in [a0; a1; a2].

(** Modelled from the spec: the constant [DMU_OT_NONE] comes from a header
    outside the translation unit; object type 0 is the unused-slot
    sentinel. *)
Definition DMU_OT_NONE : N := 0%N.

(** ** Devices and pool *)

Module VirtualDevice.
(** [Read size offset] is what the device delivers for a request of [size]
    bytes at byte [offset]. *)
Record t := { id : N; Read : N → N → list byte }.
End VirtualDevice.

Record Pool := { m_vdevs : list VirtualDevice.t }.

(** ** Outcomes *)

Inductive fault :=
| AssertionFailed      (* a failed ASSERT in a build that checks them *)
| FrontOfEmptyList     (* std::list::front / pop_front on an empty list *)
| OutOfBounds.         (* a copy that leaves its source or destination *)

Inductive io_event := DevRead (dev : N) (off : N) (size : N).

Inductive outcome (A : Type) :=
| Done (a : A) (io : list io_event)
| Crash (f : fault)
| OutOfFuel.
Arguments Done {A} a io.
Arguments Crash {A} f.
Arguments OutOfFuel {A}.

Definition outcome_bind {A B} (k : A → outcome B) (m : outcome A) : outcome B :=
  match m with
  | Done a io =>
      match k a with
      | Done b io' => Done b (io ++ io')
      | Crash f => Crash f
      | OutOfFuel => OutOfFuel
      end
  | Crash f => Crash f
  | OutOfFuel => OutOfFuel
  end.

#[export] Instance outcome_ret : MRet outcome := λ A a, Done a [].
#[export] Instance outcome_mbind : MBind outcome := @outcome_bind.

(** ** What the translation unit takes from outside *)

Class Externals := {
  (** whether [ASSERT] is compiled in *)
  debug_build : bool;
  (** [sizeof(blkptr_t)] and the reading of one record out of that many
      bytes (the cast [(blkptr_t* )buff.data()]) *)
  sizeof_blkptr : nat;
  parse_blkptr : list byte → blkptr_t;
  (** Hash.h *)
  fletcher_2_native : list byte → cksum_t;
  fletcher_4_native : list byte → cksum_t;
  sha256 : list byte → cksum_t;
  (** Compress.h: the bytes a codec stores, from the start of its
      destination, given the source and the destination length *)
  lzjb_decompress : list byte → N → list byte;
  gzip_decompress : list byte → N → list byte;
  zle_decompress : list byte → N → N → list byte
}.

(** [memcpy(dst + p, src + k, n)].  No byte is touched when [n = 0]. *)
Definition memcpy (dst : list byte) (p : nat) (src : list byte) (k n : nat)
  : outcome (list byte) :=
  if decide (n = 0) then mret dst
  else if decide (k + n ≤ length src ∧ p + n ≤ length dst)
  then mret (take p dst ++ take n (drop k src) ++ drop (p + n) dst)
  else Crash OutOfBounds.

(** A codec called on [dst.data()] with destination length [d_len]: it
    stores at most [d_len] bytes, and they must lie inside the vector. *)
Definition store (dst : list byte) (written : list byte) (d_len : N)
  : outcome (list byte) :=
  let w := take (N.to_nat d_len) written in
  if decide (length w ≤ length dst)
  then mret (w ++ drop (length w) dst)
  else Crash OutOfBounds.

Section BlockReader.
Context `{Externals}.

(** [ASSERT(c)]: checked in the builds that compile assertions in, absent
    from the others. *)
Definition ASSERT (c : bool) : outcome unit :=
  if debug_build && negb c then Crash AssertionFailed else mret ().

(** *** BlockReader::Insert *)
Definition Insert (bp : list blkptr_t) (m_bpl : list blkptr_t) : list blkptr_t :=
  let l := filter (λ b, type b ≠ DMU_OT_NONE) bp in
  match m_bpl with
  | [] => m_bpl ++ l
  | _ => l ++ m_bpl
  end.

(** *** BlockReader::Verify *)
Definition Verify (buff : list byte) (cksum_type : zio_checksum) (cksum : cksum_t)
  : outcome bool :=
  let compare (c : cksum_t) :=
    ASSERT (bool_decide (cksum = c));; mret (bool_decide (cksum = c)) in
  match cksum_type with
  | ZIO_CHECKSUM_OFF => mret true
  | ZIO_CHECKSUM_ON | ZIO_CHECKSUM_ZILOG | ZIO_CHECKSUM_FLETCHER_2 =>
      compare (fletcher_2_native buff)
  | ZIO_CHECKSUM_ZILOG2 | ZIO_CHECKSUM_FLETCHER_4 =>
      compare (fletcher_4_native buff)
  | ZIO_CHECKSUM_LABEL | ZIO_CHECKSUM_GANG_HEADER | ZIO_CHECKSUM_SHA256 =>
      compare (sha256 buff)
  | ZIO_CHECKSUM_other _ => ASSERT false;; mret false
  end.

(** *** BlockReader::Decompress
    The result is the return value and the new [dst]; [src] is a local of
    the only caller and is dropped after the call. *)
Definition Decompress (src dst : list byte) (lsize : N) (comp_type : zio_compress)
  : outcome (bool * list byte) :=
  match comp_type with
  | ZIO_COMPRESS_ON | ZIO_COMPRESS_LZJB =>
      dst' ← store (resize (N.to_nat lsize) Byte.x00 dst)
                   (lzjb_decompress src lsize) lsize;
      mret (true, dst')
  | ZIO_COMPRESS_OFF | ZIO_COMPRESS_EMPTY =>
      mret (true, src)
  | ZIO_COMPRESS_GZIP_1 | ZIO_COMPRESS_GZIP_2 | ZIO_COMPRESS_GZIP_3
  | ZIO_COMPRESS_GZIP_4 | ZIO_COMPRESS_GZIP_5 | ZIO_COMPRESS_GZIP_6
  | ZIO_COMPRESS_GZIP_7 | ZIO_COMPRESS_GZIP_8 | ZIO_COMPRESS_GZIP_9 =>
      dst' ← store dst (gzip_decompress src lsize) lsize;
      mret (true, dst')
  | ZIO_COMPRESS_ZLE =>
      dst' ← store dst (zle_decompress src lsize 64) lsize;
      mret (true, dst')
  | ZIO_COMPRESS_other _ => ASSERT false;; mret (false, dst)
  end.

(** [((size_t)bp->psize + 1) << 9] and the same for [lsize]. *)
Definition psize_bytes (bp : blkptr_t) : N := shl64 (add64 (wrap64 (psize bp)) 1) 9.
Definition lsize_bytes (bp : blkptr_t) : N := shl64 (add64 (wrap64 (lsize bp)) 1) 9.

(** [std::vector<uint8_t> src(psize); vdev->Read(src, psize, offset << 9)]:
    a zero-filled vector of [psize] bytes that receives what the device
    delivers.  The return value of the call is not looked at. *)
Definition vdev_Read (vd : VirtualDevice.t) (size off : N) : outcome (list byte) :=
  Done (resize (N.to_nat size) Byte.x00 (VirtualDevice.Read vd size off))
       [DevRead (VirtualDevice.id vd) off size].

(** *** BlockReader::Read
    [Read_vdevs] is the inner loop over [m_pool->m_vdevs]; its boolean
    tells whether [return true] was reached. *)
Fixpoint Read_vdevs (vdevs : list VirtualDevice.t) (addr : dva_t)
    (bp : blkptr_t) (dst : list byte) : outcome (bool * list byte) :=
  match vdevs with
  | [] => mret (false, dst)
  | vd :: rest =>
      if decide (VirtualDevice.id vd ≠ vdev addr) then Read_vdevs rest addr bp dst
      else
        src ← vdev_Read vd (psize_bytes bp) (shl64 (offset addr) 9);
        ok ← Verify src (cksum_type bp) (cksum bp);
        if ok : bool then
          '(done, dst') ← Decompress src dst (lsize_bytes bp) (comp_type bp);
          if done : bool then mret (true, dst') else Read_vdevs rest addr bp dst'
        else Read_vdevs rest addr bp dst
  end.

Fixpoint Read_dvas (m_pool : Pool) (addrs : list dva_t) (bp : blkptr_t)
    (dst : list byte) : outcome (bool * list byte) :=
  match addrs with
  | [] => mret (false, dst)
  | addr :: rest =>
      ASSERT (bool_decide (gang addr = 0%N));;
      '(done, dst') ← Read_vdevs (m_vdevs m_pool) addr bp dst;
      if done : bool then mret (true, dst') else Read_dvas m_pool rest bp dst'
  end.

Definition Read (m_pool : Pool) (dst : list byte) (bp : blkptr_t)
  : outcome (bool * list byte) :=
  Read_dvas m_pool (dvas bp) bp dst.

(** Modelled from the spec: [Pool::Read(dst, bp, 1)] is defined outside the
    translation unit; it is the pool's single-pointer resolve primitive,
    with the same contract as [BlockReader::Read]. *)
Definition Pool_Read (m_pool : Pool) (dst : list byte) (bp : blkptr_t) (count : N)
  : outcome (bool * list byte) :=
  Read m_pool dst bp.

(** [(blkptr_t* )buff.data()] read as [count] consecutive records. *)
Definition blkptr_array (buff : list byte) (count : nat) : list blkptr_t :=
  (λ i, parse_blkptr (take sizeof_blkptr (drop (i * sizeof_blkptr) buff)))
    <$> seq 0 count.

(** ** BlockStream *)

(** The [while(bp->lvl > 0)] loop of [ReadNext] and the final [Read]; the
    result is the return value, [buff] and [m_bpl]. *)
Fixpoint ReadNext_descend (fuel : nat) (m_pool : Pool) (bp : blkptr_t)
    (m_bpl : list blkptr_t) (buff : list byte)
  : outcome (bool * list byte * list blkptr_t) :=
  if decide (0 < lvl bp)%N then
    match fuel with
    | 0 => OutOfFuel
    | S fuel' =>
        '(ok, buff') ← Read m_pool buff bp;
        if ok : bool then
          match Insert (blkptr_array buff' (length buff' `div` sizeof_blkptr)) m_bpl with
          | [] => Crash FrontOfEmptyList
          | bp' :: m_bpl' => ReadNext_descend fuel' m_pool bp' m_bpl' buff'
          end
        else mret (false, buff', m_bpl)
    end
  else
    '(ok, buff') ← Read m_pool buff bp;
    mret (ok, buff', m_bpl).

(** *** BlockStream::ReadNext *)
Definition ReadNext (fuel : nat) (m_pool : Pool) (m_bpl : list blkptr_t)
    (buff : list byte) : outcome (bool * list byte * list blkptr_t) :=
  match m_bpl with
  | [] => mret (false, buff, m_bpl)
  | bp :: m_bpl' => ReadNext_descend fuel m_pool bp m_bpl' buff
  end.

(** The [while(ReadNext(buff))] loop of [ReadToEnd]; [n] bounds its
    iterations and [fuel] those of each [ReadNext]. *)
Fixpoint ReadToEnd_loop (n fuel : nat) (m_pool : Pool) (m_bpl : list blkptr_t)
    (buff dst : list byte) (i : nat) : outcome (bool * list byte * list blkptr_t) :=
  match n with
  | 0 => OutOfFuel
  | S n' =>
      '(more, buff', m_bpl') ← ReadNext fuel m_pool m_bpl buff;
      if more : bool then
        let dst1 :=
          if decide (length dst < i + length buff')
          then resize (i + length buff') Byte.x00 dst else dst in
        dst2 ← memcpy dst1 i buff' 0 (length buff');
        ReadToEnd_loop n' fuel m_pool m_bpl' buff' dst2 (i + length buff')
      else mret (true, dst, m_bpl')
  end.

(** *** BlockStream::ReadToEnd
    The result is the return value, [dst] and [m_bpl]. *)
Definition ReadToEnd (fuel : nat) (m_pool : Pool) (m_bpl : list blkptr_t)
    (dst : list byte) : outcome (bool * list byte * list blkptr_t) :=
  let dst := [] in
  ReadToEnd_loop fuel fuel m_pool m_bpl [] dst 0.

(** ** BlockFile *)

Record cache_t := { cache_bp : option nat; cache_buff : list byte }.

Record BlockFile := {
  m_bpl : list blkptr_t;
  m_psize : N;
  m_lsize : N;
  m_cache : cache_t
}.

(** What the constructor leaves behind: the complete object, or, after the
    early [return], the fields that have a value at that point
    ([m_cache.bp] has not been assigned then). *)
Inductive constructed :=
| Complete (f : BlockFile)
| Abandoned (m_bpl : list blkptr_t) (m_psize m_lsize : N).

(** The inner [while(bp->lvl > 0)] loop of the constructor: the leaf it
    stops at, if any, and [m_bpl]. *)
Fixpoint BlockFile_descend (fuel : nat) (m_pool : Pool) (bp : blkptr_t)
    (m_bpl : list blkptr_t) : outcome (option blkptr_t * list blkptr_t) :=
  if decide (0 < lvl bp)%N then
    match fuel with
    | 0 => OutOfFuel
    | S fuel' =>
        '(ok, buff) ← Read m_pool [] bp;
        if ok : bool then
          match Insert (blkptr_array buff (length buff `div` sizeof_blkptr)) m_bpl with
          | [] => Crash FrontOfEmptyList
          | bp' :: m_bpl' => BlockFile_descend fuel' m_pool bp' m_bpl'
          end
        else ASSERT false;; mret (None, m_bpl)
    end
  else mret (Some bp, m_bpl).

(** The outer [while(!m_bpl.empty())] loop and the code after it. *)
Fixpoint BlockFile_loop (n fuel : nat) (m_pool : Pool) (m_bpl l : list blkptr_t)
    (m_psize m_lsize : N) {struct n} : outcome constructed :=
  match m_bpl with
  | [] =>
      mret (Complete {| m_bpl := l;
                        m_psize := shl64 m_psize 9;
                        m_lsize := shl64 m_lsize 9;
                        m_cache := {| cache_bp := None; cache_buff := [] |} |})
  | bp :: m_bpl' =>
      match n with
      | 0 => OutOfFuel
      | S n' =>
          '(leaf, m_bpl'') ← BlockFile_descend fuel m_pool bp m_bpl';
          match leaf with
          | None => mret (Abandoned m_bpl'' m_psize m_lsize)
          | Some bp' =>
              BlockFile_loop n' fuel m_pool m_bpl'' (l ++ [bp'])
                (add64 m_psize (add64 (wrap64 (psize bp')) 1))
                (add64 m_lsize (add64 (wrap64 (lsize bp')) 1))
          end
      end
  end.

(** *** BlockFile::BlockFile *)
Definition BlockFile_new (fuel : nat) (m_pool : Pool) (bp : list blkptr_t)
  : outcome constructed :=
  BlockFile_loop fuel fuel m_pool (Insert bp []) [] 0 0.

(** [if(m_cache.bp != bp) { if(!read(m_cache.buff, bp)) return false;
    m_cache.bp = bp; }] *)
Definition refresh (read : list byte → blkptr_t → outcome (bool * list byte))
    (c : cache_t) (idx : nat) (bp : blkptr_t) : outcome (bool * cache_t) :=
  if decide (cache_bp c ≠ Some idx) then
    '(ok, buff) ← read (cache_buff c) bp;
    if ok : bool
    then mret (true, {| cache_bp := Some idx; cache_buff := buff |})
    else mret (false, {| cache_bp := cache_bp c; cache_buff := buff |})
  else mret (true, c).

(** [ASSERT(size == 0); return size == 0;] *)
Definition Read_finish (c : cache_t) (dst : list byte) (size : N)
  : outcome (bool * cache_t * list byte) :=
  ASSERT (bool_decide (size = 0%N));; mret (bool_decide (size = 0%N), c, dst).

(** The loop [while(size > 0 && ++i != m_bpl.end())] of [BlockFile::Read]
    and the code after it; [bpl] is the index after position [i], [p] the
    number of bytes already written through [dst]. *)
Fixpoint BlockFile_Read_rest (m_pool : Pool) (bpl : list blkptr_t) (idx : nat)
    (lstart : N) (c : cache_t) (dst : list byte) (p : nat) (size : N)
  : outcome (bool * cache_t * list byte) :=
  if decide (0 < size)%N then
    match bpl with
    | [] => Read_finish c dst size
    | bp :: rest =>
        let lsize := lsize_bytes bp in
        let lnext := add64 lstart lsize in
        '(ok, c') ← refresh (Read m_pool) c idx bp;
        if ok : bool then
          let n := N.min size lsize in
          dst' ← memcpy dst p (cache_buff c') 0 (N.to_nat n);
          BlockFile_Read_rest m_pool rest (S idx) lnext c' dst'
            (p + N.to_nat n) (sub64 size n)
        else mret (false, c', dst)
    end
  else Read_finish c dst size.

(** The [for] loop of [BlockFile::Read] over the leaf index. *)
Fixpoint BlockFile_Read_seek (m_pool : Pool) (bpl : list blkptr_t) (idx : nat)
    (lstart : N) (c : cache_t) (dst : list byte) (size offset : N)
  : outcome (bool * cache_t * list byte) :=
  match bpl with
  | [] => mret (false, c, dst)
  | bp :: rest =>
      let lsize := lsize_bytes bp in
      let lnext := add64 lstart lsize in
      if decide (offset < lnext)%N then
        '(ok, c') ← refresh (λ buff b, Pool_Read m_pool buff b 1) c idx bp;
        if ok : bool then
          let n := N.min size (sub64 lnext offset) in
          dst' ← memcpy dst 0 (cache_buff c') (N.to_nat (sub64 offset lstart))
                   (N.to_nat n);
          BlockFile_Read_rest m_pool rest (S idx) lstart c' dst'
            (N.to_nat n) (sub64 size n)
        else mret (false, c', dst)
      else BlockFile_Read_seek m_pool rest (S idx) lnext c dst size offset
  end.

(** *** BlockFile::Read
    The result is the return value, [m_cache], and the memory behind
    [dst]. *)
Definition BlockFile_Read (m_pool : Pool) (f : BlockFile) (dst : list byte)
    (size offset : N) : outcome (bool * cache_t * list byte) :=
  let end_ := add64 offset size in
  if decide (m_lsize f < end_)%N then mret (false, m_cache f, dst)
  else BlockFile_Read_seek m_pool (m_bpl f) 0 0 (m_cache f) dst size offset.

End BlockReader.

(** *** BlockStream::BlockStream
    The base-class constructor fills the empty [m_bpl] through [Insert]. *)
Definition BlockStream_new (bp : list blkptr_t) : list blkptr_t := Insert bp [].

(** ** Vocabulary of the statements *)

Section Vocabulary.

Context `{Externals}.

Implicit Types (bp : blkptr_t) (dst src buff : list byte) (m_pool : Pool).
Implicit Types (L : list blkptr_t) (c : cache_t).

Definition set_cache (f : BlockFile) (c : cache_t) : BlockFile :=
  {| m_bpl := m_bpl f; m_psize := m_psize f; m_lsize := m_lsize f; m_cache := c |}.

Definition fresh_cache : cache_t := {| cache_bp := None; cache_buff := [] |}.

(** [after io m]: the run [m] preceded by the device reads [io]. *)
Definition after {A} (io : list io_event) (m : outcome A) : outcome A :=
  match m with
  | Done a io' => Done a (io ++ io')
  | Crash f => Crash f
  | OutOfFuel => OutOfFuel
  end.

(** A descriptor with a code outside the two [switch] statements. *)
Definition unrecognized (bp : blkptr_t) : Prop :=
  (∃ code, cksum_type bp = ZIO_CHECKSUM_other code)
  ∨ (∃ code, comp_type bp = ZIO_COMPRESS_other code).

(** How a run on such a descriptor ends: [false] with [dst] as it was, or
    on one of the assertions. *)
Definition refused (dst : list byte) (m : outcome (bool * list byte)) : Prop :=
  (∃ io, m = Done (false, dst) io)
  ∨ (debug_build = true ∧ m = Crash AssertionFailed).

(** [bp] with the gang flag of its three addresses cleared. *)
Definition without_gang (bp : blkptr_t) : blkptr_t :=
  let clear (a : dva_t) := {| vdev := vdev a; offset := offset a; gang := 0 |} in
  let '(a0, a1, a2) := blk_dva bp in
  {| blk_dva := (clear a0, clear a1, clear a2);
     psize := psize bp; lsize := lsize bp; type := type bp; lvl := lvl bp;
     cksum_type := cksum_type bp; comp_type := comp_type bp; cksum := cksum bp |}.

(** A descriptor that is not an unused slot. *)
Definition live (bp : blkptr_t) : Prop := type bp ≠ DMU_OT_NONE.

(** [reads fuel m_pool q buff chunks q']: starting with queue [q] and buffer
    [buff], the successive calls of [ReadNext] return [true] with the
    buffers [chunks], and the call after them returns [false], for
    whichever reason, leaving the queue [q']. *)
Inductive reads (fuel : nat) (m_pool : Pool)
  : list blkptr_t → list byte → list (list byte) → list blkptr_t → Prop :=
  | reads_stop q buff buff' q' io :
    ReadNext fuel m_pool q buff = Done (false, buff', q') io →
    reads fuel m_pool q buff [] q'
  | reads_chunk q buff buff' q' io chunks q'' :
    ReadNext fuel m_pool q buff = Done (true, buff', q') io →
    reads fuel m_pool q' buff' chunks q'' →
    reads fuel m_pool q buff (buff' :: chunks) q''.

(** The sum of the extents [((size_t)bp->lsize + 1) << 9] that
    [BlockFile::Read] gives to the leaves of an index. *)
Definition index_bytes (L : list blkptr_t) : N :=
  foldr (λ bp acc, lsize_bytes bp + acc)%N 0%N L.

(** The running sums of the constructor. *)
Definition sectors (field : blkptr_t → N) (acc : N) (L : list blkptr_t) : N :=
  foldl (λ a bp, add64 a (add64 (wrap64 (field bp)) 1)) acc L.

(** [bp] resolves to [payload] whatever the buffer handed to [Read] held. *)
Definition resolves_to m_pool bp (payload : list byte) : Prop :=
  ∀ buff, ∃ io, Read m_pool buff bp = Done (true, payload) io.

(** ... and [payload] has the logical length the descriptor declares. *)
Definition leaf_payload m_pool bp (payload : list byte) : Prop :=
  resolves_to m_pool bp payload ∧ N.of_nat (length payload) = lsize_bytes bp.

(** [flattens m_pool q L]: the depth-first expansion of the pending queue
    [q], every indirect descriptor resolving and leaving a front to pop,
    meets the level-0 descriptors [L], in this order. *)
Inductive flattens (m_pool : Pool) : list blkptr_t → list blkptr_t → Prop :=
  | flattens_nil : flattens m_pool [] []
  | flattens_leaf bp q L :
    lvl bp = 0%N → flattens m_pool q L → flattens m_pool (bp :: q) (bp :: L)
  | flattens_node bp q payload bp' q' L :
    (0 < lvl bp)%N →
    resolves_to m_pool bp payload →
    Insert (blkptr_array payload (length payload `div` sizeof_blkptr)) q = bp' :: q' →
    flattens m_pool (bp' :: q') L →
    flattens m_pool (bp :: q) L.

(** The cached buffer is the payload of the leaf the cache names. *)
Definition cache_ok m_pool L c : Prop :=
  ∀ i, cache_bp c = Some i →
       ∃ bp, L !! i = Some bp ∧ resolves_to m_pool bp (cache_buff c).

(** [dst] with [bytes] stored from position [p] on. *)
Definition overwrite (dst : list byte) (p : nat) (bytes : list byte) : list byte :=
  take p dst ++ bytes ++ drop (p + length bytes) dst.

End Vocabulary.

(** ** Vocabulary of the further properties *)

Section Terms.

Context `{Externals}.

Implicit Types (bp : blkptr_t) (dst src buff : list byte) (m_pool : Pool).

(** The pool reduced to the devices that one of the three addresses of [bp]
    names. *)
Definition named_devices m_pool bp : Pool :=
  {| m_vdevs := filter (λ vd, VirtualDevice.id vd ∈ vdev <$> dvas bp)
                       (m_vdevs m_pool) |}.

(** [e] is the read of the physical extent of [bp] at one of its addresses,
    on a device of the pool that has the id of this address. *)
Definition reads_copy m_pool bp (e : io_event) : Prop :=
  ∃ a vd, a ∈ dvas bp ∧ vd ∈ m_vdevs m_pool ∧ VirtualDevice.id vd = vdev a
          ∧ e = DevRead (vdev a) (shl64 (offset a) 9) (psize_bytes bp).

(** The sum of the extents [((size_t)bp->psize + 1) << 9] of an index. *)
Definition physical_bytes (L : list blkptr_t) : N :=
  foldr (λ bp acc, psize_bytes bp + acc)%N 0%N L.

(** [m] with [d] as the buffer it hands back when it returns [false]. *)
Definition with_buffer (d : list byte) (m : outcome (bool * list byte))
  : outcome (bool * list byte) :=
  match m with
  | Done (false, _) io => Done (false, d) io
  | _ => m
  end.

(** The records of a payload that [Insert] keeps. *)
Definition live_records (payload : list byte) : list blkptr_t :=
  filter live (blkptr_array payload (length payload `div` sizeof_blkptr)).

(** The codes whose branch of [Decompress] decodes into [dst.data()]
    without resizing [dst]. *)
Definition decodes_in_place (comp : zio_compress) : bool :=
  match comp with
  | ZIO_COMPRESS_GZIP_1 | ZIO_COMPRESS_GZIP_2 | ZIO_COMPRESS_GZIP_3
  | ZIO_COMPRESS_GZIP_4 | ZIO_COMPRESS_GZIP_5 | ZIO_COMPRESS_GZIP_6
  | ZIO_COMPRESS_GZIP_7 | ZIO_COMPRESS_GZIP_8 | ZIO_COMPRESS_GZIP_9
  | ZIO_COMPRESS_ZLE => true
  | _ => false
  end.

End Terms.

(** ** A concrete pool for the examples

    One device holding a six-sector image, a release build, 128-byte
    records decoded by the little-endian layout of the ZFS block pointer,
    and the zero-length-encoding codec.  The codecs and hashes that the
    examples never reach store nothing and hash to zero. *)
Module Example.

Definition le (bs : list byte) : N :=
  foldr (λ b acc, Byte.to_N b + 256 * acc)%N 0%N bs.

Definition field (bs : list byte) (at_ len : nat) : N := le (take len (drop at_ bs)).

Definition checksum_of_code (c : N) : zio_checksum :=
  match c with
  | 1 => ZIO_CHECKSUM_ON | 2 => ZIO_CHECKSUM_OFF | 3 => ZIO_CHECKSUM_LABEL
  | 4 => ZIO_CHECKSUM_GANG_HEADER | 5 => ZIO_CHECKSUM_ZILOG
  | 6 => ZIO_CHECKSUM_FLETCHER_2 | 7 => ZIO_CHECKSUM_FLETCHER_4
  | 8 => ZIO_CHECKSUM_SHA256 | 9 => ZIO_CHECKSUM_ZILOG2
  | _ => ZIO_CHECKSUM_other c
  end%N.

Definition compress_of_code (c : N) : zio_compress :=
  match c with
  | 1 => ZIO_COMPRESS_ON | 2 => ZIO_COMPRESS_OFF | 3 => ZIO_COMPRESS_LZJB
  | 4 => ZIO_COMPRESS_EMPTY | 5 => ZIO_COMPRESS_GZIP_1 | 6 => ZIO_COMPRESS_GZIP_2
  | 7 => ZIO_COMPRESS_GZIP_3 | 8 => ZIO_COMPRESS_GZIP_4 | 9 => ZIO_COMPRESS_GZIP_5
  | 10 => ZIO_COMPRESS_GZIP_6 | 11 => ZIO_COMPRESS_GZIP_7 | 12 => ZIO_COMPRESS_GZIP_8
  | 13 => ZIO_COMPRESS_GZIP_9 | 14 => ZIO_COMPRESS_ZLE
  | _ => ZIO_COMPRESS_other c
  end%N.

Definition parse_dva (bs : list byte) : dva_t :=
  {| vdev := field bs 4 4;
     offset := (field bs 8 8 mod 2 ^ 63)%N;
     gang := (field bs 8 8 / 2 ^ 63)%N |}.

Definition parse (bs : list byte) : blkptr_t :=
  {| blk_dva := (parse_dva (take 16 bs), parse_dva (take 16 (drop 16 bs)),
                 parse_dva (take 16 (drop 32 bs)));
     lsize := field bs 48 2;
     psize := field bs 50 2;
     comp_type := compress_of_code (field bs 52 1);
     cksum_type := checksum_of_code (field bs 53 1);
     type := field bs 54 1;
     lvl := (field bs 55 1 mod 32)%N;
     cksum := (field bs 96 8, field bs 104 8, field bs 112 8, field bs 120 8) |}.

(** Zero-length encoding: a control byte [c] announces [c + 1] literal
    bytes when [c < n], and [c + 1 - n] zero bytes otherwise. *)
Fixpoint zle (fuel : nat) (src : list byte) (room n : nat) : list byte :=
  match fuel, src with
  | S fuel', c :: src' =>
      if decide (room = 0) then []
      else
        let len := S (N.to_nat (Byte.to_N c)) in
        if decide (len ≤ n)
        then take len src' ++ zle fuel' (drop len src') (room - len) n
        else replicate (len - n) Byte.x00 ++ zle fuel' src' (room - (len - n)) n
  | _, _ => []
  end.

Definition env (debug : bool) : Externals :=
  {| debug_build := debug;
     sizeof_blkptr := 128;
     parse_blkptr := parse;
     fletcher_2_native := λ _, (0, 0, 0, 0)%N;
     fletcher_4_native := λ _, (0, 0, 0, 0)%N;
     sha256 := λ _, (0, 0, 0, 0)%N;
     lzjb_decompress := λ _ _, [];
     gzip_decompress := λ _ _, [];
     zle_decompress := λ src d_len n,
       zle (length src) src (N.to_nat d_len) (N.to_nat n) |}.

Definition release : Externals := env false.

(** A live level-0 record whose three copies are sector 1 of device 0,
    stored uncompressed and unchecksummed: the first 56 bytes of its
    128-byte image (the rest is zero). *)
Definition leaf_record_head : list byte :=
  let dva := replicate 8 Byte.x00 ++ [Byte.x01] ++ replicate 7 Byte.x00 in
  dva ++ dva ++ dva
  ++ [Byte.x00; Byte.x00; Byte.x00; Byte.x00; Byte.x02; Byte.x02; Byte.x13; Byte.x00].

(** Sector 0: a zero-length-encoded block of four records, the first one
    [leaf_record_head] and the others unused slots. *)
Definition sector0 : list byte :=
  resize 512 Byte.x00
    ([Byte.x37] ++ leaf_record_head ++ [Byte.xff; Byte.xff; Byte.x87]).
Definition sector1 : list byte := replicate 512 Byte.x41.
Definition sector2 : list byte := replicate 512 Byte.x00.
Definition sector3 : list byte := replicate 512 Byte.x42.
Definition sector4 : list byte := replicate 512 Byte.x43.
(** Sector 5: the same four records as sector 0, stored as they are. *)
Definition sector5 : list byte := resize 512 Byte.x00 leaf_record_head.

Definition image : list byte :=
  sector0 ++ sector1 ++ sector2 ++ sector3 ++ sector4 ++ sector5.

Definition disk : VirtualDevice.t :=
  {| VirtualDevice.id := 0;
     VirtualDevice.Read := λ size off, take (N.to_nat size) (drop (N.to_nat off) image) |}.

Definition pool : Pool := {| m_vdevs := [disk] |}.

Definition at_sector (dev sector : N) (g : N) : dva_t :=
  {| vdev := dev; offset := sector; gang := g |}.

(** A descriptor of [psectors] physical and [lsectors] logical sectors
    whose three copies are [a0], [a1] and [a2]. *)
Definition descriptor (a0 a1 a2 : dva_t) (psectors lsectors level : N)
    (comp : zio_compress) : blkptr_t :=
  {| blk_dva := (a0, a1, a2);
     psize := psectors - 1; lsize := lsectors - 1;
     type := 19; lvl := level;
     cksum_type := ZIO_CHECKSUM_OFF; comp_type := comp;
     cksum := (0, 0, 0, 0)%N |}.

(** A descriptor with all three copies at one sector of device 0. *)
Definition on_disk (sector psectors lsectors level : N) (comp : zio_compress) :=
  let a := at_sector 0 sector 0 in descriptor a a a psectors lsectors level comp.

Definition nowhere : dva_t := at_sector 7 0 0.

End Example.

(** * Properties *)

(** ** Arithmetic and the outcome monad *)

Lemma wrap64_small (x : N) : (x < 2 ^ 64)%N → wrap64 x = x.
Proof. intros Hx. unfold wrap64. by apply N.mod_small. Qed.

Lemma shl64_9 (x : N) : shl64 x 9 = wrap64 (x * 512).
Proof. unfold shl64. by rewrite N.shiftl_mul_pow2. Qed.

Lemma wrap64_le (x : N) : (wrap64 x ≤ x)%N.
Proof. unfold wrap64. by apply N.Div0.mod_le. Qed.

Lemma wrap64_add_idemp_l (a b : N) : wrap64 (wrap64 a + b) = wrap64 (a + b).
Proof. unfold wrap64. apply N.Div0.add_mod_idemp_l. Qed.

Lemma add64_small (a b : N) : (a + b < 2 ^ 64)%N → add64 a b = (a + b)%N.
Proof. apply wrap64_small. Qed.

Lemma sub64_small (a b : N) : (b ≤ a)%N → (a < 2 ^ 64)%N → sub64 a b = (a - b)%N.
Proof.
  intros Hba Ha. unfold sub64. rewrite (wrap64_small b) by lia.
  unfold wrap64. replace (a + 2 ^ 64 - b)%N with (a - b + 1 * 2 ^ 64)%N by lia.
  rewrite N.Div0.mod_add. apply N.mod_small. lia.
Qed.

Lemma bind_Done {A B} (a : A) (io : list io_event) (k : A → outcome B) :
  Done a io ≫= k = after io (k a).
Proof. reflexivity. Qed.

Lemma after_nil {A} (m : outcome A) : after [] m = m.
Proof. by destruct m. Qed.

Lemma bind_ret {A B} (a : A) (k : A → outcome B) : mret a ≫= k = k a.
Proof. apply after_nil. Qed.

#[global] Arguments vdev_Read : simpl never.
#[global] Arguments Verify : simpl never.
#[global] Arguments Decompress : simpl never.
#[global] Arguments ASSERT : simpl never.

Section Resolution.
Context `{Externals}.
Implicit Types (bp : blkptr_t) (dst src buff : list byte) (m_pool : Pool).

Lemma ASSERT_true : ASSERT true = mret ().
Proof. unfold ASSERT. by rewrite andb_false_r. Qed.

Lemma ASSERT_release c : debug_build = false → ASSERT c = mret ().
Proof. unfold ASSERT. by intros ->. Qed.

Lemma ASSERT_cases c :
  ASSERT c = mret () ∨ (debug_build = true ∧ ASSERT c = Crash AssertionFailed).
Proof. unfold ASSERT. destruct debug_build, c; simpl; auto. Qed.

Lemma ASSERT_false_cases {A} (a : A) :
  (ASSERT false;; mret a) = mret a
  ∨ (debug_build = true ∧ (ASSERT false;; mret a) = Crash AssertionFailed).
Proof. unfold ASSERT. destruct debug_build; simpl; auto. Qed.

(** [Verify] issues no device read: it returns, or an assertion stops it. *)
Lemma Verify_cases buff ct ck :
  (∃ b, Verify buff ct ck = mret b)
  ∨ (debug_build = true ∧ Verify buff ct ck = Crash AssertionFailed).
Proof.
  unfold Verify.
  destruct ct; try (left; eexists; reflexivity);
    try (match goal with |- context [ASSERT ?c] => destruct (ASSERT_cases c) as [->|[? ->]] end;
         [left; eexists; reflexivity | right; by split]).
Qed.

Lemma Verify_other buff code ck :
  Verify buff (ZIO_CHECKSUM_other code) ck = mret false
  ∨ (debug_build = true
     ∧ Verify buff (ZIO_CHECKSUM_other code) ck = Crash AssertionFailed).
Proof. apply ASSERT_false_cases. Qed.

Lemma Decompress_other src dst lsize code :
  Decompress src dst lsize (ZIO_COMPRESS_other code) = mret (false, dst)
  ∨ (debug_build = true
     ∧ Decompress src dst lsize (ZIO_COMPRESS_other code) = Crash AssertionFailed).
Proof. apply ASSERT_false_cases. Qed.

Lemma Read_vdevs_unrecognized vdevs addr bp dst :
  unrecognized bp → refused dst (Read_vdevs vdevs addr bp dst).
Proof.
  intros Hbp. induction vdevs as [|vd vdevs IH]; cbn [Read_vdevs].
  { left. by eexists. }
  case_decide; [done|].
  unfold vdev_Read. rewrite bind_Done.
  destruct Hbp as [[code Hc]|[code Hc]].
  - rewrite Hc. destruct (Verify_other (resize (N.to_nat (psize_bytes bp)) Byte.x00
      (VirtualDevice.Read vd (psize_bytes bp) (shl64 (offset addr) 9))) code (cksum bp))
      as [->|[Hd ->]].
    + rewrite bind_ret. destruct IH as [[io ->]|[Hd ->]].
      * left. by eexists.
      * right. by split.
    + right. by split.
  - destruct (Verify_cases (resize (N.to_nat (psize_bytes bp)) Byte.x00
      (VirtualDevice.Read vd (psize_bytes bp) (shl64 (offset addr) 9)))
      (cksum_type bp) (cksum bp)) as [[b ->]|[Hd ->]]; [|right; by split].
    rewrite bind_ret. destruct b.
    + rewrite Hc.
      match goal with |- context [Decompress ?s ?d ?l _] =>
        destruct (Decompress_other s d l code) as [->|[Hd ->]] end.
      * rewrite bind_ret. destruct IH as [[io ->]|[Hd ->]].
        -- left. by eexists.
        -- right. by split.
      * right. by split.
    + destruct IH as [[io ->]|[Hd ->]].
      * left. by eexists.
      * right. by split.
Qed.

Lemma Read_dvas_unrecognized m_pool addrs bp dst :
  unrecognized bp → refused dst (Read_dvas m_pool addrs bp dst).
Proof.
  intros Hbp. induction addrs as [|addr addrs IH]; cbn [Read_dvas].
  { left. by eexists. }
  destruct (ASSERT_cases (bool_decide (gang addr = 0%N))) as [->|[Hd ->]];
    [|right; by split].
  rewrite bind_ret.
  destruct (Read_vdevs_unrecognized (m_vdevs m_pool) addr bp dst Hbp)
    as [[io ->]|[Hd ->]]; [|right; by split].
  rewrite bind_Done. destruct IH as [[io' ->]|[Hd ->]].
  - left. by eexists.
  - right. by split.
Qed.

(** C4.  A descriptor whose checksum code or compression code is none of
    the codes the two [switch] statements name is never resolved: whatever
    the pool holds, [Read] returns [false] and leaves [dst] as it was (in a
    build with assertions it may stop on the [ASSERT(0)] of the [default]
    branch instead).  No address yields bytes and no default algorithm is
    substituted. *)
Theorem Read_unrecognized_code_fails m_pool dst bp :
  unrecognized bp →
  refused dst (Read m_pool dst bp)
  ∧ (debug_build = false → ∃ io, Read m_pool dst bp = Done (false, dst) io).
Proof.
  intros Hbp.
  pose proof (Read_dvas_unrecognized m_pool (dvas bp) bp dst Hbp) as Hr.
  split; [exact Hr|]. intros Hrel.
  destruct Hr as [Hr|[Hd _]]; [exact Hr|congruence].
Qed.

(** C8 (amended).  For the codes OFF and EMPTY, [Decompress] succeeds with
    the input bytes as output, all of them, whatever logical size was
    declared: the sizes are not compared. *)
Theorem Decompress_OFF_EMPTY_identity src dst lsize comp :
  comp = ZIO_COMPRESS_OFF ∨ comp = ZIO_COMPRESS_EMPTY →
  Decompress src dst lsize comp = Done (true, src) [].
Proof. by intros [->| ->]. Qed.

(** *** The gang flag *)

Lemma Read_vdevs_same_place vdevs a a' bp bp' dst :
  vdev a = vdev a' → offset a = offset a' →
  psize bp = psize bp' → lsize bp = lsize bp' →
  cksum_type bp = cksum_type bp' → comp_type bp = comp_type bp' →
  cksum bp = cksum bp' →
  Read_vdevs vdevs a bp dst = Read_vdevs vdevs a' bp' dst.
Proof.
  intros Hv Ho Hp Hl Hct Hcomp Hc. revert dst.
  induction vdevs as [|vd vdevs IH]; intros dst; cbn [Read_vdevs]; [done|].
  unfold psize_bytes, lsize_bytes. rewrite Hv, Ho, Hp, Hl, Hct, Hcomp, Hc.
  case_decide; [done|].
  destruct (vdev_Read _ _ _) as [src io| |]; [|done..]. rewrite !bind_Done. f_equal.
  destruct (Verify _ _ _) as [[] io'| |]; try done; rewrite !bind_Done; f_equal;
    [|apply IH].
  destruct (Decompress _ _ _ _) as [[[] dst'] io''| |]; try done.
  rewrite !bind_Done. f_equal. apply IH.
Qed.

(** When assertions are compiled out, [Read] never looks at the gang flag:
    a descriptor resolves exactly as the same descriptor with the flags
    cleared. *)
Lemma Read_release_ignores_gang m_pool dst bp :
  debug_build = false →
  Read m_pool dst bp = Read m_pool dst (without_gang bp).
Proof.
  intros Hrel. unfold Read, without_gang, dvas.
  destruct (blk_dva bp) as [[a0 a1] a2] eqn:Hdva. cbn [blk_dva].
  generalize dst. clear dst.
  assert (∀ addrs addrs' dst,
    Forall2 (λ a a', vdev a = vdev a' ∧ offset a = offset a') addrs addrs' →
    Read_dvas m_pool addrs bp dst
    = Read_dvas m_pool addrs'
        {| blk_dva := ({| vdev := vdev a0; offset := offset a0; gang := 0 |},
                       {| vdev := vdev a1; offset := offset a1; gang := 0 |},
                       {| vdev := vdev a2; offset := offset a2; gang := 0 |});
           psize := psize bp; lsize := lsize bp; type := type bp; lvl := lvl bp;
           cksum_type := cksum_type bp; comp_type := comp_type bp;
           cksum := cksum bp |} dst) as Hdvas.
  { intros addrs addrs' dst Hall. revert dst.
    induction Hall as [|a a' addrs addrs' [Hv Ho] _ IH]; intros dst;
      cbn [Read_dvas]; [done|].
    rewrite !ASSERT_release, !bind_ret by done.
    rewrite (Read_vdevs_same_place _ a a' bp
               {| blk_dva := ({| vdev := vdev a0; offset := offset a0; gang := 0 |},
                              {| vdev := vdev a1; offset := offset a1; gang := 0 |},
                              {| vdev := vdev a2; offset := offset a2; gang := 0 |});
                  psize := psize bp; lsize := lsize bp; type := type bp;
                  lvl := lvl bp; cksum_type := cksum_type bp;
                  comp_type := comp_type bp; cksum := cksum bp |}) by done.
    destruct (Read_vdevs _ _ _ _) as [[[] dst'] io| |]; try done.
    rewrite !bind_Done. f_equal. apply IH. }
  intros dst. apply Hdvas. repeat constructor.
Qed.

(** *** The pending queue holds live descriptors only *)

Lemma Insert_eq (bps m_bpl : list blkptr_t) :
  Insert bps m_bpl = filter live bps ++ m_bpl.
Proof. unfold Insert. destruct m_bpl; [by rewrite app_nil_r|done]. Qed.

Lemma Insert_live (bps m_bpl : list blkptr_t) :
  Forall live m_bpl → Forall live (Insert bps m_bpl).
Proof.
  intros Hq. rewrite Insert_eq. apply Forall_app. split; [|done].
  apply Forall_forall. intros b Hb. by apply list_elem_of_filter in Hb as [? _].
Qed.

Lemma bind_Done_inv {A B} (m : outcome A) (k : A → outcome B) b io :
  m ≫= k = Done b io →
  ∃ a io1 io2, m = Done a io1 ∧ k a = Done b io2 ∧ io = io1 ++ io2.
Proof.
  destruct m as [a io1| |]; [|done..]. rewrite bind_Done.
  destruct (k a) as [b' io2| |] eqn:Hk; [|done..]. simpl.
  intros [= -> <-]. by exists a, io1, io2.
Qed.

Lemma ReadNext_descend_live fuel m_pool bp q buff r io :
  Forall live q →
  ReadNext_descend fuel m_pool bp q buff = Done r io → Forall live (r.2).
Proof.
  revert bp q buff io.
  induction fuel as [|fuel IH]; intros bp q buff io Hq; cbn [ReadNext_descend];
    case_decide; try done.
  - intros (([] & buff') & io1 & io2 & _ & [= <- _] & _)%bind_Done_inv;
      done.
  - intros ([ok buff'] & io1 & io2 & _ & Hk & _)%bind_Done_inv.
    destruct ok; [|by injection Hk as <- _].
    pose proof (Insert_live
      (blkptr_array buff' (length buff' `div` sizeof_blkptr)) q Hq) as Hq'.
    destruct (Insert _ q) as [|bp' q']; [done|].
    apply Forall_cons in Hq' as [_ Hq']. by eapply IH.
  - intros (([] & buff') & io1 & io2 & _ & [= <- _] & _)%bind_Done_inv;
      done.
Qed.

Lemma BlockFile_descend_live fuel m_pool bp q leaf q' io :
  live bp → Forall live q →
  BlockFile_descend fuel m_pool bp q = Done (leaf, q') io →
  Forall live q' ∧ ∀ b, leaf = Some b → live b.
Proof.
  revert bp q io.
  induction fuel as [|fuel IH]; intros bp q io Hbp Hq; cbn [BlockFile_descend];
    case_decide; try done.
  - intros [= <- <- _]. split; [done|]. by intros b [= <-].
  - intros ([ok buff'] & io1 & io2 & _ & Hk & _)%bind_Done_inv.
    destruct ok.
    + pose proof (Insert_live
        (blkptr_array buff' (length buff' `div` sizeof_blkptr)) q Hq) as Hq'.
      destruct (Insert _ q) as [|bp' q'']; [done|].
      apply Forall_cons in Hq' as [Hbp' Hq']. by eapply IH.
    + apply bind_Done_inv in Hk as (_ & ? & ? & _ & [= <- <-] & _). by split.
  - intros [= <- <- _]. split; [done|]. by intros b [= <-].
Qed.

Lemma BlockFile_loop_live n fuel m_pool q l ps ls f io :
  Forall live q → Forall live l →
  BlockFile_loop n fuel m_pool q l ps ls = Done (Complete f) io →
  Forall live (m_bpl f).
Proof.
  revert q l ps ls io.
  induction n as [|n IH]; intros q l ps ls io Hq Hl; destruct q as [|bp q];
    cbn [BlockFile_loop]; try done.
  - by intros [= <- _].
  - by intros [= <- _].
  - apply Forall_cons in Hq as [Hbp Hq].
    intros ([leaf q'] & io1 & io2 & Hd & Hk & _)%bind_Done_inv.
    apply BlockFile_descend_live in Hd as [Hq' Hleaf]; [|done..].
    destruct leaf as [b|]; [|done].
    eapply IH; [done| |done]. apply Forall_app. split; [done|].
    apply Forall_singleton. by apply Hleaf.
Qed.

(** C7.  [Insert] never fails and keeps, in their order and ahead of what
    was pending, exactly the descriptors whose object type is not NONE.
    Hence no descriptor of type NONE is in a freshly constructed queue, in
    the queue after an [Insert] or a [ReadNext], or in the leaf index of a
    constructed file. *)
Theorem Insert_drops_NONE :
  (∀ bps q, Insert bps q = filter live bps ++ q)
  ∧ (∀ bps, Forall live (BlockStream_new bps))
  ∧ (∀ bps q, Forall live q → Forall live (Insert bps q))
  ∧ (∀ fuel m_pool q buff r io,
       Forall live q → ReadNext fuel m_pool q buff = Done r io → Forall live (r.2))
  ∧ (∀ fuel m_pool bps f io,
       BlockFile_new fuel m_pool bps = Done (Complete f) io → Forall live (m_bpl f)).
Proof.
  split_and!.
  - apply Insert_eq.
  - intros bps. by apply Insert_live.
  - apply Insert_live.
  - intros fuel m_pool [|bp q] buff r io Hq; cbn [ReadNext].
    + by intros [= <- _].
    + apply Forall_cons in Hq as [_ Hq]. by apply ReadNext_descend_live.
  - intros fuel m_pool bps f io. apply BlockFile_loop_live; [|done].
    by apply Insert_live.
Qed.

End Resolution.

#[global] Arguments Read : simpl never.
#[global] Arguments Insert : simpl never.
#[global] Arguments memcpy : simpl never.

Section Stream.
Context `{Externals}.
Implicit Types (bp : blkptr_t) (dst src buff : list byte) (m_pool : Pool).

(** *** Expansion of an indirect payload *)

Lemma blkptr_array_ext buff buff' count :
  (∀ i, i < count →
     take sizeof_blkptr (drop (i * sizeof_blkptr) buff)
     = take sizeof_blkptr (drop (i * sizeof_blkptr) buff')) →
  blkptr_array buff count = blkptr_array buff' count.
Proof.
  intros Hi. unfold blkptr_array. apply list_fmap_ext. intros j i Hj.
  apply lookup_seq in Hj as [-> Hlt]. simpl. f_equal. by apply Hi.
Qed.

(** The bytes after the last whole record are not looked at. *)
Lemma blkptr_array_whole payload extra k :
  0 < sizeof_blkptr →
  length payload = k * sizeof_blkptr → length extra < sizeof_blkptr →
  blkptr_array (payload ++ extra) (length (payload ++ extra) `div` sizeof_blkptr)
  = blkptr_array payload k.
Proof.
  intros Hsz Hk Hextra.
  assert (length (payload ++ extra) `div` sizeof_blkptr = k) as ->.
  { rewrite length_app, Hk. symmetry.
    apply (Nat.div_unique _ _ _ (length extra)); lia. }
  apply blkptr_array_ext. intros i Hi.
  rewrite drop_app_le by nia.
  rewrite take_app_le; [done|]. rewrite length_drop. nia.
Qed.

(** C2 (amended).  Expanding an indirect descriptor never fails on account
    of the payload length: when the resolved payload is [k] whole records
    followed by a ragged tail shorter than one record, [ReadNext] and the
    constructor of [BlockFile] insert the [k] records, ignore the tail and
    go on with the new front of the queue. *)
Theorem indirect_payload_truncated fuel m_pool bp q buff payload extra k io :
  0 < sizeof_blkptr → (0 < lvl bp)%N →
  length payload = k * sizeof_blkptr → length extra < sizeof_blkptr →
  Read m_pool buff bp = Done (true, payload ++ extra) io →
  ReadNext_descend (S fuel) m_pool bp q buff
  = after io
      match Insert (blkptr_array payload k) q with
      | [] => Crash FrontOfEmptyList
      | bp' :: q' => ReadNext_descend fuel m_pool bp' q' (payload ++ extra)
      end
  ∧ (buff = [] →
     BlockFile_descend (S fuel) m_pool bp q
     = after io
         match Insert (blkptr_array payload k) q with
         | [] => Crash FrontOfEmptyList
         | bp' :: q' => BlockFile_descend fuel m_pool bp' q'
         end).
Proof.
  intros Hsz Hlvl Hk Hextra HRead. split; [|intros ->].
  - cbn [ReadNext_descend]. rewrite decide_True by done.
    rewrite HRead, bind_Done.
    by rewrite (blkptr_array_whole payload extra k).
  - cbn [BlockFile_descend]. rewrite decide_True by done.
    rewrite HRead, bind_Done.
    by rewrite (blkptr_array_whole payload extra k).
Qed.

(** *** ReadToEnd *)

Lemma memcpy_append dst chunk :
  memcpy (if decide (length dst < length dst + length chunk)
          then resize (length dst + length chunk) Byte.x00 dst else dst)
         (length dst) chunk 0 (length chunk)
  = mret (dst ++ chunk).
Proof.
  unfold memcpy. destruct chunk as [|b chunk].
  - simpl. rewrite decide_False by lia. by rewrite app_nil_r.
  - rewrite decide_False by done.
    rewrite (decide_True (P:=length dst < _)) by (simpl; lia).
    rewrite decide_True by (rewrite length_resize; lia).
    rewrite resize_ge by lia.
    rewrite take_app_length, drop_0, firstn_all.
    rewrite drop_ge by (rewrite length_app, length_replicate; lia).
    by rewrite app_nil_r.
Qed.

Lemma ReadToEnd_loop_reads n fuel m_pool q buff chunks q' dst :
  reads fuel m_pool q buff chunks q' → length chunks < n →
  ∃ io, ReadToEnd_loop n fuel m_pool q buff dst (length dst)
        = Done (true, dst ++ concat chunks, q') io.
Proof.
  intros Hr. revert n dst.
  induction Hr as [q buff buff' q' io HRN|q buff buff' q' io chunks q'' HRN _ IH];
    intros [|n] dst Hn; simpl in Hn; try lia; cbn [ReadToEnd_loop].
  - rewrite HRN, bind_Done. simpl. rewrite !app_nil_r. by eexists.
  - rewrite HRN, bind_Done. cbn beta iota.
    rewrite memcpy_append, bind_ret.
    destruct (IH n (dst ++ buff') ltac:(lia)) as [io' Hio'].
    rewrite length_app in Hio'. rewrite Hio'. simpl.
    rewrite <-(assoc_L (++)). by eexists.
Qed.

(** C3 (amended).  [ReadToEnd] stops at the first call of [ReadNext] that
    returns [false], whether the queue is exhausted or a descriptor failed
    to resolve, and in both cases it returns [true] with [dst] holding the
    concatenation of the chunks read before that call. *)
Theorem ReadToEnd_stops_at_first_false fuel m_pool q chunks q' dst :
  reads fuel m_pool q [] chunks q' → length chunks < fuel →
  ∃ io, ReadToEnd fuel m_pool q dst = Done (true, concat chunks, q') io.
Proof.
  intros Hr Hn. unfold ReadToEnd.
  apply (ReadToEnd_loop_reads fuel fuel m_pool q [] chunks q' [] Hr Hn).
Qed.

End Stream.

(** ** BlockFile *)

Section File.
Context `{Externals}.
Implicit Types (bp : blkptr_t) (dst src buff : list byte) (m_pool : Pool).
Implicit Types (L : list blkptr_t) (c : cache_t).

Lemma wrap64_sectors acc L :
  wrap64 (sectors lsize acc L * 512) = wrap64 (acc * 512 + index_bytes L).
Proof.
  revert acc. induction L as [|bp L IH]; intros acc; simpl.
  { by rewrite N.add_0_r. }
  rewrite IH.
  unfold lsize_bytes. rewrite shl64_9.
  generalize (index_bytes L) (add64 (wrap64 (lsize bp)) 1). intros i e.
  unfold add64, wrap64.
  rewrite <-(N.Div0.add_mod_idemp_l (_ * 512)), N.Div0.mul_mod_idemp_l,
    N.Div0.add_mod_idemp_l.
  rewrite <-(N.Div0.add_mod_idemp_r (acc * 512)),
    N.Div0.add_mod_idemp_l, N.Div0.add_mod_idemp_r.
  f_equal. lia.
Qed.

Lemma BlockFile_descend_leaf fuel m_pool bp q :
  ¬ (0 < lvl bp)%N → BlockFile_descend fuel m_pool bp q = mret (Some bp, q).
Proof. intros Hl. destruct fuel; cbn [BlockFile_descend]; by rewrite decide_False. Qed.

(** What a completed construction leaves in the object. *)
Lemma BlockFile_loop_Complete n fuel m_pool q l ps ls f io :
  BlockFile_loop n fuel m_pool q l ps ls = Done (Complete f) io →
  ∃ L, m_bpl f = l ++ L
       ∧ m_lsize f = shl64 (sectors lsize ls L) 9
       ∧ m_psize f = shl64 (sectors psize ps L) 9
       ∧ m_cache f = fresh_cache.
Proof.
  revert q l ps ls io.
  induction n as [|n IH]; intros q l ps ls io; destruct q as [|bp q];
    cbn [BlockFile_loop]; try done.
  - intros [= <- _]. exists []. by rewrite app_nil_r.
  - intros [= <- _]. exists []. by rewrite app_nil_r.
  - intros ([leaf q'] & io1 & io2 & Hd & Hk & _)%bind_Done_inv.
    destruct leaf as [b|]; [|done].
    apply IH in Hk as (L & HL & Hls & Hps & Hc).
    exists (b :: L). rewrite <-(assoc_L (++)) in HL. done.
Qed.

(** The total logical size of a constructed file is the sum of the extents
    of its leaves, reduced to 64 bits. *)
Lemma BlockFile_new_Complete fuel m_pool bps f io :
  BlockFile_new fuel m_pool bps = Done (Complete f) io →
  m_lsize f = wrap64 (index_bytes (m_bpl f)) ∧ m_cache f = fresh_cache.
Proof.
  intros (L & HL & Hls & _ & Hc)%BlockFile_loop_Complete.
  simpl in HL. subst L. split; [|done].
  by rewrite Hls, shl64_9, wrap64_sectors.
Qed.

(** *** Requests that the index cannot serve *)

(** An offset at or past the end of the index is not found, and the scan
    reads no device and leaves the cache and [dst] alone. *)
Lemma BlockFile_Read_seek_past m_pool L idx lstart c dst size offset :
  (lstart + index_bytes L ≤ offset)%N → (offset < 2 ^ 64)%N →
  BlockFile_Read_seek m_pool L idx lstart c dst size offset = Done (false, c, dst) [].
Proof.
  revert idx lstart. induction L as [|bp L IH]; intros idx lstart Hle Hoff;
    cbn [BlockFile_Read_seek]; [done|].
  simpl in Hle. rewrite add64_small by lia.
  rewrite decide_False by lia. apply IH; lia.
Qed.

(** A request whose end, computed without wrap-around, lies past the total
    logical size is refused at once. *)
Lemma BlockFile_Read_past_end m_pool f dst size offset :
  (offset + size < 2 ^ 64)%N → (m_lsize f < offset + size)%N →
  BlockFile_Read m_pool f dst size offset = Done (false, m_cache f, dst) [].
Proof.
  intros Hno Hlt. unfold BlockFile_Read.
  rewrite add64_small by done. by rewrite decide_True.
Qed.

(** *** Zero-length requests *)

Lemma sub64_0_0 : sub64 0 0 = 0%N.
Proof. reflexivity. Qed.

Lemma refresh_resolves (read : list byte → blkptr_t → outcome (bool * list byte))
    c idx bp :
  (∀ buff, ∃ out io, read buff bp = Done (true, out) io) →
  ∃ c' io, refresh read c idx bp = Done (true, c') io.
Proof.
  intros Hr. unfold refresh. case_decide; [|by eexists _, _].
  destruct (Hr (cache_buff c)) as (out & io & ->). rewrite bind_Done.
  by eexists _, _.
Qed.

Lemma BlockFile_Read_seek_zero m_pool L idx lstart c dst offset :
  (∀ bp buff, bp ∈ L → ∃ out io, Read m_pool buff bp = Done (true, out) io) →
  (lstart ≤ offset)%N → (offset < wrap64 (lstart + index_bytes L))%N →
  ∃ c' io, BlockFile_Read_seek m_pool L idx lstart c dst 0 offset
           = Done (true, c', dst) io.
Proof.
  revert idx lstart. induction L as [|bp L IH]; intros idx lstart HL Hle Hoff;
    cbn [BlockFile_Read_seek]; simpl in Hoff.
  { rewrite N.add_0_r in Hoff. pose proof (wrap64_le lstart). lia. }
  case_decide as Hin.
  - destruct (refresh_resolves (λ buff b, Pool_Read m_pool buff b 1) c idx bp)
      as (c' & io & ->).
    { intros buff. apply HL. by left. }
    rewrite bind_Done. cbn beta iota.
    rewrite N.min_0_l. unfold memcpy at 1. rewrite decide_True by done.
    rewrite bind_ret, sub64_0_0.
    destruct L; cbn [BlockFile_Read_rest]; rewrite decide_False by lia;
      unfold Read_finish; rewrite bool_decide_eq_true_2 by done;
      rewrite ASSERT_true, bind_ret; by eexists _, _.
  - apply IH; [|lia|].
    + intros b buff Hb. apply HL. by right.
    + unfold add64. by rewrite wrap64_add_idemp_l, <-N.add_assoc.
Qed.

(** C10.  On a constructed file whose leaves all resolve, a read of zero
    bytes succeeds and copies nothing at every offset below the total
    logical size [m_lsize]; at the offset equal to the total logical size
    (the sum of the extents of the leaves, which [m_lsize] then is; for the
    empty file: offset 0) it returns [false], although that empty range ends
    inside the file.  [offset] is a [uint64_t] value and [c] any state of
    the one-block cache. *)
Theorem zero_length_read fuel m_pool bps f io0 c dst offset :
  BlockFile_new fuel m_pool bps = Done (Complete f) io0 →
  (∀ bp buff, bp ∈ m_bpl f → ∃ out io, Read m_pool buff bp = Done (true, out) io) →
  (offset < 2 ^ 64)%N →
  ((offset < m_lsize f)%N →
     ∃ c' io, BlockFile_Read m_pool (set_cache f c) dst 0 offset
              = Done (true, c', dst) io)
  ∧ (offset = index_bytes (m_bpl f) →
     m_lsize f = offset
     ∧ BlockFile_Read m_pool (set_cache f c) dst 0 offset = Done (false, c, dst) []).
Proof.
  intros Hnew HL H64.
  destruct (BlockFile_new_Complete _ _ _ _ _ Hnew) as [Hls _].
  unfold BlockFile_Read. cbn [set_cache m_lsize m_bpl m_cache].
  unfold add64. rewrite N.add_0_r, (wrap64_small offset) by done. split.
  - intros Hoff. rewrite decide_False by lia.
    apply BlockFile_Read_seek_zero; [done|lia|]. by rewrite N.add_0_l, <-Hls.
  - intros ->. rewrite wrap64_small in Hls by done. split; [done|].
    rewrite decide_False by lia. apply BlockFile_Read_seek_past; lia.
Qed.

(** *** Reads inside the file *)

Lemma resolves_to_inj m_pool bp p1 p2 :
  resolves_to m_pool bp p1 → resolves_to m_pool bp p2 → p1 = p2.
Proof.
  intros H1 H2. destruct (H1 []) as [io1 E1], (H2 []) as [io2 E2]. congruence.
Qed.

Lemma overwrite_nil dst p : overwrite dst p [] = dst.
Proof. unfold overwrite. simpl. rewrite Nat.add_0_r. apply take_drop. Qed.

Lemma length_overwrite dst p bytes :
  p + length bytes ≤ length dst → length (overwrite dst p bytes) = length dst.
Proof.
  intros Hp. unfold overwrite.
  rewrite !length_app, length_take, length_drop. lia.
Qed.

Lemma overwrite_overwrite dst p a b :
  p + length a ≤ length dst →
  overwrite (overwrite dst p a) (p + length a) b = overwrite dst p (a ++ b).
Proof.
  intros Hp. unfold overwrite at 1 3.
  assert (length (take p dst) = p) as Hlen by (rewrite length_take; lia).
  assert (take (p + length a) (overwrite dst p a) = take p dst ++ a) as ->.
  { unfold overwrite. rewrite (assoc_L (++)).
    apply take_app_length'. rewrite length_app. lia. }
  assert (drop (p + length a + length b) (overwrite dst p a)
          = drop (p + length (a ++ b)) dst) as ->.
  { unfold overwrite. rewrite (assoc_L (++)).
    rewrite drop_app_ge by (rewrite length_app; lia).
    rewrite length_app, Hlen, drop_drop. f_equal. rewrite length_app. lia. }
  by rewrite <-!(assoc_L (++)).
Qed.

Lemma memcpy_ok dst p src k n :
  k + n ≤ length src → p + n ≤ length dst →
  memcpy dst p src k n = mret (overwrite dst p (take n (drop k src))).
Proof.
  intros Hk Hp. unfold memcpy. case_decide as Hn.
  - subst n. by rewrite take_0, overwrite_nil.
  - rewrite decide_True by done. unfold overwrite.
    rewrite length_take, length_drop. do 4 f_equal. lia.
Qed.

Lemma refresh_leaf (read : list byte → blkptr_t → outcome (bool * list byte))
    m_pool Lall c idx bp payload :
  (∀ buff b, read buff b = Read m_pool buff b) →
  Lall !! idx = Some bp → resolves_to m_pool bp payload → cache_ok m_pool Lall c →
  ∃ c' io, refresh read c idx bp = Done (true, c') io
           ∧ cache_buff c' = payload ∧ cache_ok m_pool Lall c'.
Proof.
  intros Hread Hidx Hbp Hc. unfold refresh. case_decide as Hne.
  - rewrite Hread. destruct (Hbp (cache_buff c)) as [io ->]. rewrite bind_Done.
    eexists _, _. split; [done|]. split; [done|].
    intros i [= <-]. by exists bp.
  - destruct (Hc idx Hne) as (bp' & Hidx' & Hres).
    assert (bp' = bp) as -> by congruence.
    eexists _, _. split; [done|]. split; [|done].
    by eapply resolves_to_inj.
Qed.

Lemma drop_cons_inv {A} (l : list A) n x k :
  drop n l = x :: k → l !! n = Some x ∧ drop (S n) l = k.
Proof.
  intros Hd. split.
  - rewrite <-(Nat.add_0_r n), <-lookup_drop, Hd. done.
  - replace (S n) with (n + 1) by lia. rewrite <-(drop_drop l 1 n), Hd. done.
Qed.

Lemma take_min_app {A} (a x : list A) s :
  take (s `min` length a) a ++ take (s - s `min` length a) x = take s (a ++ x).
Proof.
  rewrite take_app. destruct (decide (s ≤ length a)).
  - rewrite Nat.min_l by lia. by replace (s - s) with 0 by lia;
      replace (s - length a) with 0 by lia.
  - rewrite Nat.min_r by lia. by rewrite firstn_all, (take_ge a s) by lia.
Qed.

Lemma BlockFile_Read_rest_spec m_pool Lall L P :
  Forall2 (leaf_payload m_pool) L P →
  ∀ idx lstart c dst p size,
    drop idx Lall = L → cache_ok m_pool Lall c →
    (size ≤ index_bytes L)%N → (size < 2 ^ 64)%N →
    p + N.to_nat size ≤ length dst →
    ∃ c' io,
      BlockFile_Read_rest m_pool L idx lstart c dst p size
      = Done (true, c', overwrite dst p (take (N.to_nat size) (concat P))) io
      ∧ cache_ok m_pool Lall c'.
Proof.
  induction 1 as [|bp payload L P [Hres Hlen] _ IH];
    intros idx lstart c dst p size Hdrop Hc Hsize H64 Hp.
  - simpl in Hsize. assert (size = 0%N) as -> by lia.
    cbn [BlockFile_Read_rest]. rewrite decide_False by lia.
    unfold Read_finish. rewrite bool_decide_eq_true_2 by done.
    rewrite ASSERT_true, bind_ret. simpl. rewrite overwrite_nil. by eexists _, _.
  - cbn [BlockFile_Read_rest]. case_decide as Hpos.
    2:{ assert (size = 0%N) as -> by lia.
        unfold Read_finish. rewrite bool_decide_eq_true_2 by done.
        rewrite ASSERT_true, bind_ret. simpl. rewrite overwrite_nil.
        by eexists _, _. }
    apply drop_cons_inv in Hdrop as [Hidx Hdrop].
    destruct (refresh_leaf (Read m_pool) m_pool Lall c idx bp payload)
      as (c1 & io1 & -> & Hbuff & Hc1); [done..|].
    rewrite bind_Done. cbn beta iota. rewrite Hbuff.
    simpl in Hsize.
    set (n := N.min size (lsize_bytes bp)).
    assert (N.to_nat n = N.to_nat size `min` length payload) as Hn by lia.
    rewrite memcpy_ok by (simpl; lia). rewrite bind_ret, drop_0.
    rewrite sub64_small by lia.
    set (dst1 := overwrite dst p (take (N.to_nat n) payload)).
    assert (length (take (N.to_nat n) payload) = N.to_nat n) as Hlen1
      by (rewrite length_take; lia).
    destruct (IH (S idx) (add64 lstart (lsize_bytes bp)) c1 dst1
                (p + N.to_nat n) (size - n)%N) as (c2 & io2 & -> & Hc2);
      [done|done|lia|lia| |].
    { unfold dst1. rewrite length_overwrite by lia. lia. }
    eexists _, _. split; [|done]. simpl. do 2 f_equal.
    unfold dst1. rewrite <-Hlen1 at 2.
    rewrite overwrite_overwrite by lia. f_equal.
    replace (N.to_nat (size - n)) with (N.to_nat size - N.to_nat n) by lia.
    rewrite Hn. apply take_min_app.
Qed.

Lemma BlockFile_Read_seek_spec m_pool Lall L P :
  Forall2 (leaf_payload m_pool) L P →
  ∀ idx lstart c dst size offset,
    drop idx Lall = L → cache_ok m_pool Lall c →
    (lstart + index_bytes L < 2 ^ 64)%N →
    (lstart ≤ offset)%N → (offset < lstart + index_bytes L)%N →
    (offset + size ≤ lstart + index_bytes L)%N →
    N.to_nat size ≤ length dst →
    ∃ c' io,
      BlockFile_Read_seek m_pool L idx lstart c dst size offset
      = Done (true, c',
              overwrite dst 0
                (take (N.to_nat size) (drop (N.to_nat (offset - lstart)) (concat P)))) io
      ∧ cache_ok m_pool Lall c'.
Proof.
  induction 1 as [|bp payload L P [Hres Hlen] HLP IH];
    intros idx lstart c dst size offset Hdrop Hc H64 Hle Hoff Hend Hdst;
    simpl in H64, Hoff, Hend; [lia|].
  cbn [BlockFile_Read_seek]. rewrite add64_small by lia.
  apply drop_cons_inv in Hdrop as [Hidx Hdrop]. case_decide as Hin.
  - destruct (refresh_leaf (λ buff b, Pool_Read m_pool buff b 1)
                m_pool Lall c idx bp payload)
      as (c1 & io1 & -> & Hbuff & Hc1); [done..|].
    rewrite bind_Done. cbn beta iota. rewrite Hbuff.
    rewrite !sub64_small by lia.
    set (k := N.to_nat (offset - lstart)).
    set (n := N.min size (lstart + lsize_bytes bp - offset)).
    assert (k < length payload) as Hk by lia.
    assert (N.to_nat n = N.to_nat size `min` length (drop k payload)) as Hn
      by (rewrite length_drop; lia).
    rewrite memcpy_ok by (simpl; rewrite length_drop in Hn; lia).
    rewrite bind_ret.
    assert (length (take (N.to_nat n) (drop k payload)) = N.to_nat n) as Hlen1
      by (rewrite length_take; lia).
    set (dst1 := overwrite dst 0 (take (N.to_nat n) (drop k payload))).
    destruct (BlockFile_Read_rest_spec m_pool Lall L P HLP (S idx) lstart c1 dst1
                (N.to_nat n) (size - n)%N) as (c2 & io2 & -> & Hc2);
      [done|done|lia|lia| |].
    { unfold dst1. rewrite length_overwrite by (simpl; lia). lia. }
    eexists _, _. split; [|done]. simpl. do 2 f_equal.
    unfold dst1. rewrite <-Hlen1 at 2.
    rewrite (overwrite_overwrite dst 0) by (simpl; lia). f_equal.
    replace (N.to_nat (size - n)) with (N.to_nat size - N.to_nat n) by lia.
    rewrite drop_app_le by lia. rewrite Hn. apply take_min_app.
  - destruct (IH (S idx) (lstart + lsize_bytes bp)%N c dst size offset)
      as (c2 & io2 & -> & Hc2); [done|done|lia..|].
    eexists _, _. split; [|done]. do 3 f_equal. simpl.
    rewrite drop_app_ge by lia. do 2 f_equal. lia.
Qed.

(** *** The two traversals meet the same leaves *)

Lemma descend_flattens m_pool q0 L :
  flattens m_pool q0 L → ∀ bp q, q0 = bp :: q →
  ∃ k leaf q' L',
    L = leaf :: L' ∧ flattens m_pool q' L'
    ∧ (∀ fuel, k ≤ fuel →
         ∃ io, BlockFile_descend fuel m_pool bp q = Done (Some leaf, q') io)
    ∧ (∀ fuel buff payload, k ≤ fuel → resolves_to m_pool leaf payload →
         ∃ io, ReadNext_descend fuel m_pool bp q buff = Done (true, payload, q') io).
Proof.
  induction 1 as [|bp0 q0 L Hlvl Hfl _|bp0 q0 payload bp' q' L Hlvl Hres HIns Hfl IH];
    intros bp q Heq; simplify_eq.
  - exists 0, bp, q, L. split_and!; [done..| |].
    + intros fuel _. rewrite BlockFile_descend_leaf by lia. by eexists.
    + intros fuel buff payload _ Hres.
      destruct fuel; cbn [ReadNext_descend]; rewrite decide_False by lia;
        destruct (Hres buff) as [io ->]; rewrite bind_Done; by eexists.
  - destruct (IH bp' q' eq_refl) as (k & leaf & q'' & L' & -> & Hfl' & HF & HS).
    exists (S k), leaf, q'', L'. split_and!; [done..| |].
    + intros [|fuel] Hk; [lia|]. cbn [BlockFile_descend].
      rewrite decide_True by done. destruct (Hres []) as [io ->].
      rewrite bind_Done. cbn beta iota. rewrite HIns.
      destruct (HF fuel) as [io' ->]; [lia|]. by eexists.
    + intros [|fuel] buff pl Hk Hpl; [lia|]. cbn [ReadNext_descend].
      rewrite decide_True by done. destruct (Hres buff) as [io ->].
      rewrite bind_Done. cbn beta iota. rewrite HIns.
      destruct (HS fuel payload pl) as [io' ->]; [lia|done|]. by eexists.
Qed.

Lemma flattens_nil_inv m_pool q : flattens m_pool q [] → q = [].
Proof.
  intros Hfl. destruct q as [|bp q]; [done|].
  by destruct (descend_flattens _ _ _ Hfl bp q eq_refl) as (?&?&?&?&?&_).
Qed.

Lemma BlockFile_loop_flattens m_pool L :
  ∀ q l ps ls, flattens m_pool q L →
  ∃ k, ∀ n fuel, k ≤ n → k ≤ fuel →
    ∃ io, BlockFile_loop n fuel m_pool q l ps ls
          = Done (Complete {| m_bpl := l ++ L;
                              m_psize := shl64 (sectors psize ps L) 9;
                              m_lsize := shl64 (sectors lsize ls L) 9;
                              m_cache := fresh_cache |}) io.
Proof.
  induction L as [|leaf L IH]; intros q l ps ls Hfl.
  - apply flattens_nil_inv in Hfl as ->. exists 0. intros n fuel _ _.
    destruct n; cbn [BlockFile_loop]; rewrite app_nil_r; by eexists.
  - destruct q as [|bp q]; [inversion Hfl|].
    destruct (descend_flattens _ _ _ Hfl bp q eq_refl)
      as (k1 & leaf' & q' & L' & [= <- <-] & Hfl' & HF & _).
    destruct (IH q' (l ++ [leaf])
                (add64 ps (add64 (wrap64 (psize leaf)) 1))
                (add64 ls (add64 (wrap64 (lsize leaf)) 1)) Hfl') as [k2 Hk2].
    exists (S (k1 + k2)). intros [|n] fuel Hn Hf; [lia|].
    cbn [BlockFile_loop]. destruct (HF fuel) as [io1 ->]; [lia|].
    rewrite bind_Done. cbn beta iota.
    destruct (Hk2 n fuel) as [io2 ->]; [lia..|].
    rewrite <-(assoc_L (++)). by eexists.
Qed.

Lemma reads_flattens m_pool L P :
  Forall2 (leaf_payload m_pool) L P →
  ∀ q, flattens m_pool q L →
  ∃ k, ∀ fuel buff, k ≤ fuel → reads fuel m_pool q buff P [].
Proof.
  induction 1 as [|leaf payload L P [Hres _] _ IH]; intros q Hfl.
  - apply flattens_nil_inv in Hfl as ->. exists 0. intros fuel buff _.
    by eapply reads_stop.
  - destruct q as [|bp q]; [inversion Hfl|].
    destruct (descend_flattens _ _ _ Hfl bp q eq_refl)
      as (k1 & leaf' & q' & L' & [= <- <-] & Hfl' & _ & HS).
    destruct (IH q' Hfl') as [k2 Hk2].
    exists (k1 + k2). intros fuel buff Hk.
    destruct (HS fuel buff payload) as [io Hio]; [lia|done|].
    eapply reads_chunk; [exact Hio|]. apply Hk2. lia.
Qed.

Lemma length_concat_payloads m_pool L P :
  Forall2 (leaf_payload m_pool) L P →
  N.of_nat (length (concat P)) = index_bytes L.
Proof.
  induction 1 as [|bp payload L P [_ Hlen] _ IH]; simpl; [done|].
  rewrite length_app. lia.
Qed.

(** C5 (amended).  Take root descriptors whose depth-first expansion
    resolves everywhere and meets the leaves [L], each leaf resolving, from
    whatever buffer, to a payload of exactly its declared logical length
    (the payloads are [P]), the lengths adding up to less than [2^64].
    Then, with enough fuel, the constructor of [BlockFile] completes with
    leaf index [L] and total logical size [index_bytes L], [ReadToEnd] of a
    [BlockStream] over the same roots returns the concatenation of [P], and
    for every [offset] below the total logical size and every [size] with
    [offset + size] within it, [BlockFile::Read] returns [true] and stores
    through [dst] exactly the bytes [offset, offset + size) of that
    concatenation, whatever leaf the one-block cache held before. *)
Theorem BlockFile_Read_agrees_with_ReadToEnd m_pool bps L P c dst size offset :
  flattens m_pool (Insert bps []) L →
  Forall2 (leaf_payload m_pool) L P →
  (index_bytes L < 2 ^ 64)%N →
  cache_ok m_pool L c →
  (offset + size ≤ index_bytes L)%N → (offset < index_bytes L)%N →
  N.to_nat size ≤ length dst →
  ∃ fuel f io1 io2 io3 c',
    BlockFile_new fuel m_pool bps = Done (Complete f) io1
    ∧ m_bpl f = L ∧ m_lsize f = index_bytes L
    ∧ ReadToEnd fuel m_pool (BlockStream_new bps) [] = Done (true, concat P, []) io2
    ∧ BlockFile_Read m_pool (set_cache f c) dst size offset
      = Done (true, c',
              take (N.to_nat size) (drop (N.to_nat offset) (concat P))
              ++ drop (N.to_nat size) dst) io3
    ∧ cache_ok m_pool L c'.
Proof.
  intros Hfl HLP H64 Hc Hend Hoff Hdst.
  destruct (BlockFile_loop_flattens m_pool L _ [] 0%N 0%N Hfl) as [k1 Hk1].
  destruct (reads_flattens m_pool L P HLP _ Hfl) as [k2 Hk2].
  set (fuel := S (k1 + k2 + length P)).
  destruct (Hk1 fuel fuel) as [io1 Hnew]; [lia..|].
  destruct (ReadToEnd_loop_reads fuel fuel m_pool (Insert bps []) [] P [] [])
    as [io2 Hstream]; [apply Hk2; lia|lia|].
  pose proof (length_concat_payloads m_pool L P HLP) as Hlen.
  destruct (BlockFile_Read_seek_spec m_pool L L P HLP 0 0%N c dst size offset)
    as (c' & io3 & Hread & Hc'); [done|done|lia..|].
  eexists fuel, _, io1, io2, io3, c'. split_and!; [exact Hnew|done| |exact Hstream| |done].
  - cbn [m_lsize]. rewrite shl64_9, wrap64_sectors. simpl. by apply wrap64_small.
  - unfold BlockFile_Read. cbn [set_cache m_lsize m_bpl m_cache].
    rewrite shl64_9, wrap64_sectors. simpl (0 * 512 + _)%N.
    rewrite wrap64_small, add64_small by lia.
    rewrite decide_False by lia. rewrite app_nil_l, Hread. do 2 f_equal.
    unfold overwrite. rewrite N.sub_0_r. simpl. f_equal. f_equal.
    rewrite length_take, length_drop. lia.
Qed.

End File.

(** * Further properties of the code *)

(** ** BlockReader::Decompress and BlockReader::Read *)

Section Copies.
Context `{Externals}.
Implicit Types (bp : blkptr_t) (dst src buff : list byte) (m_pool : Pool).

Local Ltac inv_bind H :=
  let io1 := fresh "io" in
  let io2 := fresh "io" in
  apply bind_Done_inv in H as (? & io1 & io2 & ? & H & ->).

Lemma bind_Done_nil {A B} (a : A) (k : A → outcome B) : Done a [] ≫= k = k a.
Proof. apply after_nil. Qed.

Lemma store_Done dst written d_len out io :
  store dst written d_len = Done out io → io = [] ∧ length out = length dst.
Proof.
  unfold store. case_decide; [|done]. intros [= <- <-]. split; [done|].
  rewrite length_app, length_drop. lia.
Qed.

Lemma Verify_Done buff ct ck b io : Verify buff ct ck = Done b io → io = [].
Proof.
  destruct (Verify_cases buff ct ck) as [[b' ->]|[_ ->]]; [|done].
  by intros [= _ <-].
Qed.

Lemma Decompress_Done src dst lsize comp b out io :
  Decompress src dst lsize comp = Done (b, out) io →
  io = []
  ∧ match comp with
    | ZIO_COMPRESS_other _ => b = false ∧ out = dst
    | ZIO_COMPRESS_OFF | ZIO_COMPRESS_EMPTY => b = true ∧ out = src
    | ZIO_COMPRESS_ON | ZIO_COMPRESS_LZJB => b = true ∧ length out = N.to_nat lsize
    | _ => b = true ∧ length out = length dst
    end.
Proof.
  unfold Decompress. intros HD.
  destruct comp;
    try (by unfold mret, outcome_ret in HD; simplify_eq);
    try (inv_bind HD; unfold mret, outcome_ret in HD; simplify_eq;
         match goal with E : store _ _ _ = _ |- _ =>
           apply store_Done in E as [-> E] end;
         rewrite ?length_resize in *; done).
  destruct (ASSERT_false_cases (false, dst)) as [E|[_ E]];
    rewrite E in HD; [|done]. by unfold mret, outcome_ret in HD; simplify_eq.
Qed.

(** X1.  What a completed [Decompress] returns: no device is read; the codes
    outside the [switch] give [false] and leave [dst] alone; OFF and EMPTY
    give the source; ON and LZJB give exactly [lsize] bytes; the GZIP codes
    and ZLE give a buffer of the length [dst] had on entry, since these two
    branches decode into [dst.data()] without a [resize]. *)
Theorem Decompress_result src dst lsize comp b out io :
  Decompress src dst lsize comp = Done (b, out) io →
  io = []
  ∧ match comp with
    | ZIO_COMPRESS_other _ => b = false ∧ out = dst
    | ZIO_COMPRESS_OFF | ZIO_COMPRESS_EMPTY => b = true ∧ out = src
    | ZIO_COMPRESS_ON | ZIO_COMPRESS_LZJB => b = true ∧ length out = N.to_nat lsize
    | _ => b = true ∧ length out = length dst
    end.
Proof. apply Decompress_Done. Qed.

(** X2.  With the codes ON and LZJB, [Decompress] cannot fail and cannot
    leave the vector: whatever the codec stores, the result is [true] with
    exactly [lsize] bytes. *)
Theorem Decompress_LZJB_total src dst lsize comp :
  comp = ZIO_COMPRESS_ON ∨ comp = ZIO_COMPRESS_LZJB →
  ∃ out, Decompress src dst lsize comp = Done (true, out) []
         ∧ length out = N.to_nat lsize.
Proof.
  intros Hc.
  assert (∃ out, store (resize (N.to_nat lsize) Byte.x00 dst)
                   (lzjb_decompress src lsize) lsize = Done out []
                 ∧ length out = N.to_nat lsize) as (out & Hs & Hlen).
  { unfold store. rewrite decide_True.
    - eexists. split; [done|]. rewrite length_app, length_drop, length_resize.
      rewrite length_take. lia.
    - rewrite length_take, length_resize. lia. }
  exists out. split; [|done].
  destruct Hc as [-> | ->]; unfold Decompress; by rewrite Hs.
Qed.

Lemma Read_vdevs_false vdevs addr bp dst d io :
  Read_vdevs vdevs addr bp dst = Done (false, d) io → d = dst.
Proof.
  revert dst io. induction vdevs as [|vd vdevs IH]; intros dst io;
    cbn [Read_vdevs].
  { by intros [= <- _]. }
  case_decide; [apply IH|]. intros HR.
  inv_bind HR. inv_bind HR. destruct x0.
  - inv_bind HR. destruct x0 as [[] dst']; [done|].
    apply IH in HR as ->.
    match goal with E : Decompress _ _ _ _ = _ |- _ =>
      apply Decompress_Done in E as [_ E];
      destruct (comp_type bp); destruct E; congruence end.
  - by eapply IH.
Qed.

Lemma Read_dvas_false m_pool addrs bp dst d io :
  Read_dvas m_pool addrs bp dst = Done (false, d) io → d = dst.
Proof.
  revert dst io. induction addrs as [|addr addrs IH]; intros dst io;
    cbn [Read_dvas].
  { by intros [= <- _]. }
  intros HR. inv_bind HR. inv_bind HR. destruct x0 as [[] dst']; [done|].
  apply IH in HR as ->. by eapply Read_vdevs_false.
Qed.

(** X3.  A resolution that fails leaves the caller's buffer as it was. *)
Theorem Read_false_keeps_dst m_pool dst bp d io :
  Read m_pool dst bp = Done (false, d) io → d = dst.
Proof. apply Read_dvas_false. Qed.

End Copies.

Section Candidates.
Context `{Externals}.
Implicit Types (bp : blkptr_t) (dst src buff : list byte) (m_pool : Pool).

Lemma Read_vdevs_io vdevs addr bp dst r io :
  Read_vdevs vdevs addr bp dst = Done r io →
  Forall (λ e, ∃ vd, vd ∈ vdevs ∧ VirtualDevice.id vd = vdev addr
               ∧ e = DevRead (vdev addr) (shl64 (offset addr) 9) (psize_bytes bp)) io
  ∧ (r.1 = true → io ≠ []) ∧ length io ≤ length vdevs.
Proof.
  revert dst r io. induction vdevs as [|vd vdevs IH]; intros dst r io;
    cbn [Read_vdevs].
  { intros [= <- <-]. split_and!; [constructor|done|done]. }
  assert (∀ dst r io, Read_vdevs vdevs addr bp dst = Done r io →
    Forall (λ e, ∃ vd0, vd0 ∈ vd :: vdevs ∧ VirtualDevice.id vd0 = vdev addr
                 ∧ e = DevRead (vdev addr) (shl64 (offset addr) 9) (psize_bytes bp)) io
    ∧ (r.1 = true → io ≠ []) ∧ length io ≤ length vdevs) as IH'.
  { intros dst0 r0 io0 (Hall & Hne & Hlen)%IH. split_and!; [|done..].
    eapply Forall_impl; [exact Hall|]. intros e (vd0 & ? & ? & ?).
    exists vd0. split_and!; [by right|done..]. }
  case_decide as Hid.
  { intros (Hall & Hne & Hlen)%IH'. split_and!; [done..|simpl; lia]. }
  unfold vdev_Read. rewrite bind_Done. intros HR.
  assert (∀ r' io', Forall (λ e, ∃ vd0, vd0 ∈ vd :: vdevs
                       ∧ VirtualDevice.id vd0 = vdev addr
                       ∧ e = DevRead (vdev addr) (shl64 (offset addr) 9)
                               (psize_bytes bp)) io' →
            length io' ≤ length vdevs →
            Forall (λ e, ∃ vd0, vd0 ∈ vd :: vdevs
                       ∧ VirtualDevice.id vd0 = vdev addr
                       ∧ e = DevRead (vdev addr) (shl64 (offset addr) 9)
                               (psize_bytes bp))
              (DevRead (VirtualDevice.id vd) (shl64 (offset addr) 9)
                 (psize_bytes bp) :: io')
            ∧ ((r' : bool * list byte).1 = true →
               DevRead (VirtualDevice.id vd) (shl64 (offset addr) 9)
                 (psize_bytes bp) :: io' ≠ [])
            ∧ length (DevRead (VirtualDevice.id vd) (shl64 (offset addr) 9)
                        (psize_bytes bp) :: io') ≤ length (vd :: vdevs)) as Hcons.
  { intros r' io' Hall Hlen. split_and!; [|done|simpl; lia].
    constructor; [|done]. exists vd. split_and!; [by left|done|by rewrite Hid]. }
  destruct (Verify _ _ _) as [ok io1| |] eqn:HV; [|done..].
  apply Verify_Done in HV as ->. rewrite bind_Done_nil in HR.
  destruct ok.
  - destruct (Decompress _ _ _ _) as [[fin dst'] io2| |] eqn:HD; [|done..].
    apply Decompress_Done in HD as [-> _]. rewrite bind_Done_nil in HR.
    destruct fin.
    + simpl in HR. injection HR as <- <-. apply Hcons; [constructor|simpl; lia].
    + destruct (Read_vdevs vdevs addr bp dst') as [r' io'| |] eqn:HR'; [|done..].
      simpl in HR. injection HR as <- <-.
      apply IH' in HR' as (? & ? & ?). by apply Hcons.
  - destruct (Read_vdevs vdevs addr bp dst) as [r' io'| |] eqn:HR'; [|done..].
    simpl in HR. injection HR as <- <-.
    apply IH' in HR' as (? & ? & ?). by apply Hcons.
Qed.

(** X4.  The device reads of a completed resolution: each one is the read
    of the physical extent [(psize + 1) << 9] at [offset << 9] of one of the
    three addresses, on a device of the pool carrying the id of that
    address; there are at most three per device of the pool; and a
    resolution that returns [true] has read a device. *)
Theorem Read_reads_named_copies m_pool dst bp r io :
  Read m_pool dst bp = Done r io →
  Forall (reads_copy m_pool bp) io
  ∧ length io ≤ 3 * length (m_vdevs m_pool)
  ∧ (r.1 = true → io ≠ []).
Proof.
  unfold Read.
  assert (∀ addrs dst r io,
    Read_dvas m_pool addrs bp dst = Done r io →
    Forall (λ e, ∃ a vd, a ∈ addrs ∧ vd ∈ m_vdevs m_pool
                 ∧ VirtualDevice.id vd = vdev a
                 ∧ e = DevRead (vdev a) (shl64 (offset a) 9) (psize_bytes bp)) io
    ∧ length io ≤ length addrs * length (m_vdevs m_pool)
    ∧ (r.1 = true → io ≠ [])) as Hdvas.
  { clear dst r io. induction addrs as [|a addrs IH]; intros dst r io;
      cbn [Read_dvas].
    { intros [= <- <-]. split_and!; [constructor|done|done]. }
    destruct (ASSERT_cases (bool_decide (gang a = 0%N))) as [->|[_ ->]]; [|done].
    rewrite bind_ret.
    destruct (Read_vdevs (m_vdevs m_pool) a bp dst) as [[fin dst'] io1| |] eqn:HV;
      [|done..].
    apply Read_vdevs_io in HV as (Hall1 & Hne1 & Hlen1). rewrite bind_Done.
    assert (Forall (λ e, ∃ a0 vd, a0 ∈ a :: addrs ∧ vd ∈ m_vdevs m_pool
                   ∧ VirtualDevice.id vd = vdev a0
                   ∧ e = DevRead (vdev a0) (shl64 (offset a0) 9) (psize_bytes bp))
              io1) as Hall1'.
    { eapply Forall_impl; [exact Hall1|]. intros e (vd & ? & ? & ?).
      exists a, vd. split_and!; [by left|done..]. }
    destruct fin.
    - simpl. intros [= <- <-]. rewrite app_nil_r.
      split_and!; [done|simpl; lia|]. intros _. by apply Hne1.
    - destruct (Read_dvas m_pool addrs bp dst') as [r' io2| |] eqn:HR; [|done..].
      simpl. intros [= <- <-]. apply IH in HR as (Hall2 & Hlen2 & Hne2).
      split_and!.
      + apply Forall_app. split; [done|].
        eapply Forall_impl; [exact Hall2|]. intros e (a0 & vd & ? & ? & ? & ?).
        exists a0, vd. split_and!; [by right|done..].
      + rewrite length_app. simpl. lia.
      + intros Hr. specialize (Hne2 Hr). by destruct io1, io2. }
  intros (Hall & Hlen & Hne)%Hdvas. split_and!; [done| |done].
  unfold dvas in Hlen. by destruct (blk_dva bp) as [[? ?] ?].
Qed.

Lemma Read_vdevs_absent vdevs addr bp dst :
  (∀ vd, vd ∈ vdevs → VirtualDevice.id vd ≠ vdev addr) →
  Read_vdevs vdevs addr bp dst = mret (false, dst).
Proof.
  induction vdevs as [|vd vdevs IH]; intros Habs; cbn [Read_vdevs]; [done|].
  rewrite decide_True by (apply Habs; by left).
  apply IH. intros vd' Hvd'. apply Habs. by right.
Qed.

(** X5.  A descriptor none of whose addresses names a device of the pool
    (the empty pool among them) does not resolve: [Read] returns [false]
    without reading a device and with [dst] as it was.  The gang flags are
    clear, or the build has no assertions. *)
Theorem Read_without_device m_pool dst bp :
  debug_build = false ∨ Forall (λ a, gang a = 0%N) (dvas bp) →
  (∀ a vd, a ∈ dvas bp → vd ∈ m_vdevs m_pool → VirtualDevice.id vd ≠ vdev a) →
  Read m_pool dst bp = Done (false, dst) [].
Proof.
  unfold Read. generalize (dvas bp). intros addrs Hgang Habs.
  induction addrs as [|a addrs IH]; cbn [Read_dvas]; [done|].
  assert (ASSERT (bool_decide (gang a = 0%N)) = mret ()) as ->.
  { destruct Hgang as [Hrel|Hg]; [by apply ASSERT_release|].
    apply Forall_cons in Hg as [Hg _].
    rewrite bool_decide_eq_true_2 by done. apply ASSERT_true. }
  rewrite bind_ret, Read_vdevs_absent, bind_ret.
  - apply IH.
    + destruct Hgang as [?|Hg]; [by left|right]. by apply Forall_cons in Hg as [_ ?].
    + intros a' vd Ha'. apply Habs. by right.
  - intros vd. apply Habs. by left.
Qed.

Lemma Read_vdevs_filter (P : VirtualDevice.t → Prop) `{!∀ vd, Decision (P vd)}
    vdevs addr bp dst :
  (∀ vd, VirtualDevice.id vd = vdev addr → P vd) →
  Read_vdevs (filter P vdevs) addr bp dst = Read_vdevs vdevs addr bp dst.
Proof.
  intros HP. revert dst. induction vdevs as [|vd vdevs IH]; intros dst; [done|].
  rewrite filter_cons. destruct (decide (P vd)) as [Hvd|Hvd]; cbn [Read_vdevs].
  - case_decide; [apply IH|].
    destruct (vdev_Read _ _ _) as [src io| |]; [|done..]. rewrite !bind_Done. f_equal.
    destruct (Verify _ _ _) as [[] io'| |]; try done; rewrite !bind_Done; f_equal;
      [|apply IH].
    destruct (Decompress _ _ _ _) as [[[] dst'] io''| |]; try done.
    rewrite !bind_Done. f_equal. apply IH.
  - rewrite decide_True; [apply IH|]. intros Hid. by apply Hvd, HP.
Qed.

(** X6.  A resolution looks only at the devices its descriptor names:
    removing from the pool every device whose id is not the [vdev] of one
    of the three addresses changes nothing of the run, neither its result
    nor its device reads. *)
Theorem Read_named_devices_only m_pool dst bp :
  Read (named_devices m_pool bp) dst bp = Read m_pool dst bp.
Proof.
  unfold Read, named_devices.
  assert (∀ addrs dst, addrs ⊆ dvas bp →
    Read_dvas {| m_vdevs := filter (λ vd, VirtualDevice.id vd ∈ vdev <$> dvas bp)
                                   (m_vdevs m_pool) |} addrs bp dst
    = Read_dvas m_pool addrs bp dst) as Hdvas.
  { induction addrs as [|a addrs IH]; intros dst0 Hsub; cbn [Read_dvas m_vdevs];
      [done|].
    destruct (ASSERT _) as [[] io| |]; [|done..]. rewrite !bind_Done. f_equal.
    rewrite Read_vdevs_filter.
    - destruct (Read_vdevs _ _ _ _) as [[[] dst'] io'| |]; try done.
      rewrite !bind_Done. f_equal. apply IH.
      intros x Hx. apply Hsub. by right.
    - intros vd ->. apply list_elem_of_fmap. exists a. split; [done|].
      apply Hsub. by left. }
  by apply Hdvas.
Qed.

Lemma Read_vdevs_true vdevs addr bp dst out io :
  Read_vdevs vdevs addr bp dst = Done (true, out) io →
  match comp_type bp with
  | ZIO_COMPRESS_other _ => False
  | ZIO_COMPRESS_OFF | ZIO_COMPRESS_EMPTY => length out = N.to_nat (psize_bytes bp)
  | ZIO_COMPRESS_ON | ZIO_COMPRESS_LZJB => length out = N.to_nat (lsize_bytes bp)
  | _ => length out = length dst
  end.
Proof.
  revert dst io. induction vdevs as [|vd vdevs IH]; intros dst io;
    cbn [Read_vdevs]; [done|].
  case_decide; [apply IH|].
  unfold vdev_Read. rewrite bind_Done.
  destruct (Verify _ _ _) as [ok io1| |]; [|done..]. rewrite bind_Done.
  destruct ok.
  - destruct (Decompress _ _ _ _) as [[fin dst'] io2| |] eqn:HD; [|done..].
    apply Decompress_Done in HD as [-> HD]. rewrite bind_Done_nil.
    destruct fin.
    + simpl. intros [= <- _].
      destruct (comp_type bp); destruct HD as [? HD]; try done;
        subst; by rewrite ?length_resize.
    + destruct (Read_vdevs vdevs addr bp dst') as [[b o] io'| |] eqn:HR; [|done..].
      simpl. intros [= -> -> _]. apply IH in HR.
      destruct (comp_type bp); destruct HD as [? HD]; by subst.
  - destruct (Read_vdevs vdevs addr bp dst) as [[b o] io'| |] eqn:HR; [|done..].
    simpl. intros [= -> -> _]. by apply IH in HR.
Qed.

(** X7.  The length of a resolved payload: the physical size
    [(psize + 1) << 9] under OFF and EMPTY, the logical size
    [(lsize + 1) << 9] under ON and LZJB, and, under the GZIP codes and ZLE,
    the length the caller's buffer had before the call.  No descriptor with
    a code outside the [switch] resolves. *)
Theorem Read_payload_length m_pool dst bp out io :
  Read m_pool dst bp = Done (true, out) io →
  match comp_type bp with
  | ZIO_COMPRESS_other _ => False
  | ZIO_COMPRESS_OFF | ZIO_COMPRESS_EMPTY => length out = N.to_nat (psize_bytes bp)
  | ZIO_COMPRESS_ON | ZIO_COMPRESS_LZJB => length out = N.to_nat (lsize_bytes bp)
  | _ => length out = length dst
  end.
Proof.
  unfold Read. generalize (dvas bp). intros addrs. revert dst io.
  induction addrs as [|a addrs IH]; intros dst io; cbn [Read_dvas]; [done|].
  destruct (ASSERT _) as [[] io0| |]; [|done..]. rewrite bind_Done.
  destruct (Read_vdevs (m_vdevs m_pool) a bp dst) as [[fin dst'] io1| |] eqn:HV;
    [|done..].
  rewrite bind_Done. destruct fin.
  - simpl. intros [= <- _]. by apply Read_vdevs_true in HV.
  - apply Read_vdevs_false in HV as ->.
    destruct (Read_dvas m_pool addrs bp dst) as [[b o] io2| |] eqn:HR; [|done..].
    simpl. intros [= -> -> _]. by apply IH in HR.
Qed.

Lemma with_buffer_after d io (m : outcome (bool * list byte)) :
  with_buffer d (after io m) = after io (with_buffer d m).
Proof. by destruct m as [[[] ?] ?| |]. Qed.

Lemma Decompress_swap src dst lsize comp :
  comp = ZIO_COMPRESS_OFF ∨ comp = ZIO_COMPRESS_EMPTY →
  Decompress src dst lsize comp = mret (true, src).
Proof. by intros [-> | ->]. Qed.

Lemma Read_vdevs_swap vdevs addr bp d1 d2 :
  comp_type bp = ZIO_COMPRESS_OFF ∨ comp_type bp = ZIO_COMPRESS_EMPTY →
  Read_vdevs vdevs addr bp d2 = with_buffer d2 (Read_vdevs vdevs addr bp d1).
Proof.
  intros Hc. induction vdevs as [|vd vdevs IH]; cbn [Read_vdevs]; [done|].
  case_decide; [done|].
  unfold vdev_Read. rewrite !bind_Done, with_buffer_after. f_equal.
  destruct (Verify _ _ _) as [[] io1| |]; try done;
    rewrite !bind_Done, with_buffer_after; f_equal; [|done].
  by rewrite !Decompress_swap, !bind_ret by done.
Qed.

(** X8.  Under the codes OFF and EMPTY a resolution does not depend on the
    buffer it is given: two calls on the same descriptor read the same
    devices and agree on the result, a failing call handing back its own
    buffer.  So a descriptor that resolved once resolves to the same
    payload from every buffer. *)
Theorem Read_swap_ignores_buffer m_pool bp d1 d2 :
  comp_type bp = ZIO_COMPRESS_OFF ∨ comp_type bp = ZIO_COMPRESS_EMPTY →
  Read m_pool d2 bp = with_buffer d2 (Read m_pool d1 bp)
  ∧ (∀ out io, Read m_pool d1 bp = Done (true, out) io → resolves_to m_pool bp out).
Proof.
  intros Hc.
  assert (∀ d1 d2, Read m_pool d2 bp = with_buffer d2 (Read m_pool d1 bp)) as Heq.
  { clear d1 d2. unfold Read. generalize (dvas bp). intros addrs.
    induction addrs as [|a addrs IH]; intros d1 d2; cbn [Read_dvas]; [done|].
    destruct (ASSERT _) as [[] io0| |]; [|done..].
    rewrite !bind_Done, with_buffer_after. f_equal.
    rewrite (Read_vdevs_swap _ a bp d1 d2) by done.
    destruct (Read_vdevs (m_vdevs m_pool) a bp d1) as [[[] x] io1| |]; try done.
    change (with_buffer d2 (Done (false, x) io1)) with (Done (false, d2) io1).
    rewrite !bind_Done, with_buffer_after. f_equal. apply IH. }
  split; [apply Heq|]. intros out io HR buff. exists io.
  by rewrite (Heq d1 buff), HR.
Qed.

End Candidates.

(** ** BlockReader::Insert, BlockStream::ReadNext and BlockStream::ReadToEnd *)

Section Queue.
Context `{Externals}.
Implicit Types (bp : blkptr_t) (dst src buff : list byte) (m_pool : Pool).
Implicit Types (q L : list blkptr_t).

(** X9.  Two batches inserted one after the other are queued as the later
    batch followed by the earlier one, as one insertion of both would queue
    them; an insertion lengthens the queue by at most the number of records
    it is given. *)
Theorem Insert_Insert (a b : list blkptr_t) q :
  Insert a (Insert b q) = Insert (a ++ b) q
  ∧ length (Insert a q) ≤ length a + length q.
Proof.
  split.
  - by rewrite !Insert_eq, filter_app, (assoc_L (++)).
  - rewrite Insert_eq, length_app. pose proof (length_filter live a). lia.
Qed.

(** X10.  A [ReadNext] whose front descriptor, leaf or indirect, does not
    resolve returns [false], hands [buff] back as it was, and has consumed
    that descriptor: the queue is left at the descriptors behind it. *)
Theorem ReadNext_failed_resolution fuel m_pool bp q buff d io :
  Read m_pool buff bp = Done (false, d) io →
  ReadNext (S fuel) m_pool (bp :: q) buff = Done (false, buff, q) io.
Proof.
  intros HR. pose proof (Read_dvas_false _ _ _ _ _ _ HR) as ->.
  cbn [ReadNext ReadNext_descend]. case_decide; rewrite HR, bind_Done; simpl;
    by rewrite app_nil_r.
Qed.

(** X11.  An indirect descriptor that resolves to a payload without a live
    record: when descriptors are pending behind it, [ReadNext] and the
    constructor of [BlockFile] go on, within the same descent, with the
    first of them; when none is, they take the front of the empty list. *)
Theorem expansion_without_live_record fuel m_pool bp q buff payload io :
  (0 < lvl bp)%N →
  Read m_pool buff bp = Done (true, payload) io →
  live_records payload = [] →
  ReadNext (S fuel) m_pool (bp :: q) buff
  = match q with
    | [] => Crash FrontOfEmptyList
    | _ => after io (ReadNext fuel m_pool q payload)
    end
  ∧ (buff = [] →
     BlockFile_descend (S fuel) m_pool bp q
     = match q with
       | [] => Crash FrontOfEmptyList
       | bp' :: q' => after io (BlockFile_descend fuel m_pool bp' q')
       end).
Proof.
  intros Hlvl HR Hnone. unfold live_records in Hnone. split; [|intros ->].
  - cbn [ReadNext ReadNext_descend]. rewrite decide_True by done.
    rewrite HR, bind_Done. cbn beta iota. rewrite Insert_eq, Hnone.
    by destruct q.
  - cbn [BlockFile_descend]. rewrite decide_True by done.
    rewrite HR, bind_Done. cbn beta iota. rewrite Insert_eq, Hnone.
    by destruct q.
Qed.

Lemma ReadToEnd_loop_inv n fuel m_pool q buff dst b out q' io :
  ReadToEnd_loop n fuel m_pool q buff dst (length dst) = Done (b, out, q') io →
  b = true
  ∧ ∃ chunks, reads fuel m_pool q buff chunks q' ∧ out = dst ++ concat chunks.
Proof.
  revert q buff dst io. induction n as [|n IH]; intros q buff dst io;
    cbn [ReadToEnd_loop]; [done|].
  destruct (ReadNext fuel m_pool q buff) as [[[more buff'] q1] io1| |] eqn:HRN;
    [|done..].
  rewrite bind_Done. destruct more.
  - cbn beta iota. rewrite memcpy_append, bind_ret, <-length_app.
    destruct (ReadToEnd_loop n fuel m_pool q1 buff' (dst ++ buff')
                (length (dst ++ buff'))) as [[[b' out'] q2] io2| |] eqn:HL;
      [|done..].
    simpl. intros [= -> -> -> _].
    apply IH in HL as (-> & chunks & Hr & ->). split; [done|].
    exists (buff' :: chunks). split; [by eapply reads_chunk|].
    simpl. by rewrite (assoc_L (++)).
  - simpl. intros [= <- <- <- _]. split; [done|].
    exists []. split; [by eapply reads_stop|]. simpl. by rewrite app_nil_r.
Qed.

(** X12.  [ReadToEnd] never returns [false].  Whenever it returns, the
    calls of [ReadNext] it made returned [true] for some chunks and then
    [false] once, [dst] is the concatenation of these chunks, whatever it
    held on entry, and the queue is where that last call left it. *)
Theorem ReadToEnd_completed fuel m_pool q dst b out q' io :
  ReadToEnd fuel m_pool q dst = Done (b, out, q') io →
  b = true ∧ ∃ chunks, reads fuel m_pool q [] chunks q' ∧ out = concat chunks.
Proof.
  unfold ReadToEnd. intros HL.
  by apply (ReadToEnd_loop_inv fuel fuel m_pool q [] []) in HL.
Qed.

Lemma flattens_leaves m_pool q L :
  flattens m_pool q L → Forall (λ bp, lvl bp = 0%N) L.
Proof. induction 1; [constructor|by constructor|done]. Qed.

Lemma flattens_flat m_pool L :
  Forall (λ bp, lvl bp = 0%N) L → flattens m_pool L L.
Proof. induction 1; [constructor|by constructor]. Qed.

Lemma reads_flattens_resolved m_pool L P :
  Forall2 (resolves_to m_pool) L P →
  ∀ q, flattens m_pool q L →
  ∃ k, ∀ fuel buff, k ≤ fuel → reads fuel m_pool q buff P [].
Proof.
  induction 1 as [|leaf payload L P Hres _ IH]; intros q Hfl.
  - apply flattens_nil_inv in Hfl as ->. exists 0. intros fuel buff _.
    by eapply reads_stop.
  - destruct q as [|bp q]; [inversion Hfl|].
    destruct (descend_flattens _ _ _ Hfl bp q eq_refl)
      as (k1 & leaf' & q' & L' & [= <- <-] & Hfl' & _ & HS).
    destruct (IH q' Hfl') as [k2 Hk2].
    exists (k1 + k2). intros fuel buff Hk.
    destruct (HS fuel buff payload) as [io Hio]; [lia|done|].
    eapply reads_chunk; [exact Hio|]. apply Hk2. lia.
Qed.

(** X13.  A stream returns the payloads of the leaves of its tree, in
    depth-first order, and nothing of the indirect blocks: when the
    expansion of the queue [q] meets the leaves [L] and these resolve to the
    payloads [P], [ReadToEnd], given enough fuel, returns the concatenation
    of [P] and empties the queue, and so it does on the queue made of the
    leaves [L] themselves. *)
Theorem ReadToEnd_flattened m_pool q L P dst :
  flattens m_pool q L → Forall2 (resolves_to m_pool) L P →
  ∃ k, ∀ fuel, k ≤ fuel →
    ∃ io1 io2,
      ReadToEnd fuel m_pool q dst = Done (true, concat P, []) io1
      ∧ ReadToEnd fuel m_pool L dst = Done (true, concat P, []) io2.
Proof.
  intros Hfl HLP.
  destruct (reads_flattens_resolved m_pool L P HLP q Hfl) as [k1 Hk1].
  destruct (reads_flattens_resolved m_pool L P HLP L) as [k2 Hk2].
  { apply flattens_flat. by eapply flattens_leaves. }
  exists (S (k1 + k2 + length P)). intros fuel Hfuel.
  destruct (ReadToEnd_loop_reads fuel fuel m_pool q [] P [] [])
    as [io1 H1]; [apply Hk1; lia|lia|].
  destruct (ReadToEnd_loop_reads fuel fuel m_pool L [] P [] [])
    as [io2 H2]; [apply Hk2; lia|lia|].
  by exists io1, io2.
Qed.

End Queue.

(** ** BlockFile::BlockFile and BlockFile::Read *)

Section Index.
Context `{Externals}.
Implicit Types (bp : blkptr_t) (dst src buff : list byte) (m_pool : Pool).
Implicit Types (q L : list blkptr_t) (c : cache_t).

Lemma wrap64_sectors_psize acc L :
  wrap64 (sectors psize acc L * 512) = wrap64 (acc * 512 + physical_bytes L).
Proof.
  revert acc. induction L as [|bp L IH]; intros acc; simpl.
  { by rewrite N.add_0_r. }
  rewrite IH.
  unfold psize_bytes. rewrite shl64_9.
  generalize (physical_bytes L) (add64 (wrap64 (psize bp)) 1). intros i e.
  unfold add64, wrap64.
  rewrite <-(N.Div0.add_mod_idemp_l (_ * 512)), N.Div0.mul_mod_idemp_l,
    N.Div0.add_mod_idemp_l.
  rewrite <-(N.Div0.add_mod_idemp_r (acc * 512)),
    N.Div0.add_mod_idemp_l, N.Div0.add_mod_idemp_r.
  f_equal. lia.
Qed.

Lemma BlockFile_descend_level fuel m_pool bp q leaf q' io :
  BlockFile_descend fuel m_pool bp q = Done (Some leaf, q') io → lvl leaf = 0%N.
Proof.
  revert bp q io. induction fuel as [|fuel IH]; intros bp q io;
    cbn [BlockFile_descend]; case_decide as Hl; try done.
  - intros [= <- _ _]. lia.
  - intros ([ok buff'] & io1 & io2 & _ & Hk & _)%bind_Done_inv. destruct ok.
    + destruct (Insert _ q) as [|bp' q'']; [done|]. by eapply IH.
    + by apply bind_Done_inv in Hk as (_ & ? & ? & _ & [=] & _).
  - intros [= <- _ _]. lia.
Qed.

Lemma BlockFile_loop_level n fuel m_pool q l ps ls f io :
  Forall (λ bp, lvl bp = 0%N) l →
  BlockFile_loop n fuel m_pool q l ps ls = Done (Complete f) io →
  Forall (λ bp, lvl bp = 0%N) (m_bpl f).
Proof.
  revert q l ps ls io.
  induction n as [|n IH]; intros q l ps ls io Hl; destruct q as [|bp q];
    cbn [BlockFile_loop]; try done.
  - by intros [= <- _].
  - by intros [= <- _].
  - intros ([leaf q'] & io1 & io2 & Hd & Hk & _)%bind_Done_inv.
    destruct leaf as [b|]; [|done].
    apply BlockFile_descend_level in Hd.
    eapply IH; [|done]. apply Forall_app. split; [done|]. by apply Forall_singleton.
Qed.

(** X14.  The object a completed construction leaves: every entry of the
    leaf index has level 0; [m_lsize] and [m_psize] are the sums of the
    logical and of the physical extents of the entries, reduced to 64 bits
    (the sums themselves when they fit); the cache names no leaf. *)
Theorem BlockFile_new_index fuel m_pool bps f io :
  BlockFile_new fuel m_pool bps = Done (Complete f) io →
  Forall (λ bp, lvl bp = 0%N) (m_bpl f)
  ∧ m_lsize f = wrap64 (index_bytes (m_bpl f))
  ∧ m_psize f = wrap64 (physical_bytes (m_bpl f))
  ∧ ((index_bytes (m_bpl f) < 2 ^ 64)%N → m_lsize f = index_bytes (m_bpl f))
  ∧ m_cache f = fresh_cache.
Proof.
  intros Hnew. split_and!.
  - by eapply (BlockFile_loop_level fuel fuel m_pool _ []).
  - by eapply BlockFile_new_Complete.
  - unfold BlockFile_new in Hnew.
    apply BlockFile_loop_Complete in Hnew as (L & HL & _ & Hps & _).
    rewrite app_nil_l in HL. subst L.
    rewrite Hps, shl64_9, wrap64_sectors_psize. f_equal.
  - intros Hlt. destruct (BlockFile_new_Complete _ _ _ _ _ Hnew) as [-> _].
    by apply wrap64_small.
  - by eapply BlockFile_new_Complete.
Qed.

Lemma BlockFile_loop_leaves n fuel m_pool q l ps ls :
  Forall (λ bp, lvl bp = 0%N) q → length q ≤ n →
  ∃ f, BlockFile_loop n fuel m_pool q l ps ls = Done (Complete f) []
       ∧ m_bpl f = l ++ q.
Proof.
  revert n l ps ls. induction q as [|bp q IH]; intros n l ps ls Hq Hn.
  - destruct n; cbn [BlockFile_loop]; eexists; (split; [done|]);
      by rewrite app_nil_r.
  - destruct n as [|n]; [simpl in Hn; lia|].
    apply Forall_cons in Hq as [Hbp Hq]. cbn [BlockFile_loop].
    rewrite BlockFile_descend_leaf, bind_ret by lia.
    destruct (IH n (l ++ [bp]) (add64 ps (add64 (wrap64 (psize bp)) 1))
                (add64 ls (add64 (wrap64 (lsize bp)) 1)) Hq) as (f & -> & Hf).
    { simpl in Hn. lia. }
    exists f. split; [done|]. by rewrite Hf, <-(assoc_L (++)).
Qed.

(** X15.  Over root descriptors that are all of level 0 the constructor
    reads no device and always completes: the leaf index is the roots that
    are not unused slots, in their order, whether or not they can be
    resolved.  A leaf that does not resolve is met by [Read] only. *)
Theorem BlockFile_new_of_leaves fuel m_pool bps :
  Forall (λ bp, lvl bp = 0%N) bps → length bps ≤ fuel →
  ∃ f, BlockFile_new fuel m_pool bps = Done (Complete f) []
       ∧ m_bpl f = filter live bps.
Proof.
  intros Hlvl Hfuel. unfold BlockFile_new. rewrite Insert_eq, app_nil_r.
  destruct (BlockFile_loop_leaves fuel fuel m_pool (filter live bps) [] 0%N 0%N)
    as (f & Hf & Hbpl).
  - apply Forall_forall. intros b [_ Hb]%list_elem_of_filter.
    rewrite Forall_forall in Hlvl. by apply Hlvl.
  - pose proof (length_filter live bps). lia.
  - by exists f.
Qed.

(** *** What Read stores through dst *)

Lemma memcpy_Done dst p src k n d io :
  memcpy dst p src k n = Done d io →
  io = [] ∧ length d = length dst ∧ take p d = take p dst
  ∧ drop (p + n) d = drop (p + n) dst.
Proof.
  unfold memcpy. case_decide; [by intros [= <- <-]|].
  case_decide as Hb; [|done]. destruct Hb as [Hk Hp]. intros [= <- <-].
  assert (length (take p dst) = p) as Hlp by (rewrite length_take; lia).
  assert (length (take n (drop k src)) = n) as Hln
    by (rewrite length_take, length_drop; lia).
  split_and!; [done| | |].
  - rewrite !length_app, Hlp, Hln, length_drop. lia.
  - by rewrite take_app_length'.
  - rewrite (assoc_L (++)). apply drop_app_length'. rewrite length_app. lia.
Qed.

Lemma Read_finish_Done c dst size ok c' d io :
  Read_finish c dst size = Done (ok, c', d) io → d = dst.
Proof.
  unfold Read_finish. destruct (ASSERT _) as [[] io0| |]; [|done..].
  rewrite bind_Done. simpl. by intros [= _ _ <- _].
Qed.

Lemma BlockFile_Read_rest_frame m_pool L idx lstart c dst p size ok c' d io :
  (size < 2 ^ 64)%N →
  BlockFile_Read_rest m_pool L idx lstart c dst p size = Done (ok, c', d) io →
  length d = length dst ∧ take p d = take p dst
  ∧ drop (p + N.to_nat size) d = drop (p + N.to_nat size) dst.
Proof.
  revert idx lstart c dst p size io.
  induction L as [|bp L IH]; intros idx lstart c dst p size io H64;
    cbn [BlockFile_Read_rest]; case_decide as Hpos;
    try (by intros ->%Read_finish_Done).
  destruct (refresh _ c idx bp) as [[okr c1] io1| |]; [|done..].
  rewrite bind_Done. destruct okr; [|simpl; by intros [= _ _ <- _]].
  set (n := N.min size (lsize_bytes bp)).
  destruct (memcpy dst p (cache_buff c1) 0 (N.to_nat n)) as [dst1 io2| |] eqn:Hm;
    [|done..].
  apply memcpy_Done in Hm as (-> & Hlen1 & Htake1 & Hdrop1).
  rewrite bind_Done_nil. rewrite sub64_small by lia.
  destruct (BlockFile_Read_rest m_pool L (S idx) (add64 lstart (lsize_bytes bp))
              c1 dst1 (p + N.to_nat n) (size - n)%N)
    as [[[ok2 c2] d2] io3| |] eqn:HR; [|done..].
  simpl. intros [= -> -> -> _].
  apply IH in HR as (Hlen2 & Htake2 & Hdrop2); [|lia].
  replace (p + N.to_nat n + N.to_nat (size - n)) with (p + N.to_nat size)
    in Hdrop2 by lia.
  split_and!.
  - congruence.
  - rewrite <-Htake1.
    replace (take p d) with (take p (take (p + N.to_nat n) d))
      by (rewrite take_take; f_equal; lia).
    rewrite Htake2, take_take. f_equal. lia.
  - rewrite Hdrop2.
    replace (p + N.to_nat size) with (p + N.to_nat n + (N.to_nat size - N.to_nat n))
      by lia.
    by rewrite <-(drop_drop dst1 _ (p + N.to_nat n)), Hdrop1, drop_drop.
Qed.

Lemma BlockFile_Read_seek_frame m_pool L idx lstart c dst size offset ok c' d io :
  (size < 2 ^ 64)%N →
  BlockFile_Read_seek m_pool L idx lstart c dst size offset = Done (ok, c', d) io →
  length d = length dst ∧ drop (N.to_nat size) d = drop (N.to_nat size) dst.
Proof.
  revert idx lstart io.
  induction L as [|bp L IH]; intros idx lstart io H64; cbn [BlockFile_Read_seek].
  { by intros [= _ _ <- _]. }
  case_decide; [|by apply IH].
  destruct (refresh _ c idx bp) as [[okr c1] io1| |]; [|done..].
  rewrite bind_Done. destruct okr; [|simpl; by intros [= _ _ <- _]].
  set (n := N.min size (sub64 (add64 lstart (lsize_bytes bp)) offset)).
  destruct (memcpy dst 0 (cache_buff c1) _ (N.to_nat n)) as [dst1 io2| |] eqn:Hm;
    [|done..].
  apply memcpy_Done in Hm as (-> & Hlen1 & _ & Hdrop1).
  rewrite bind_Done_nil. rewrite sub64_small by lia.
  destruct (BlockFile_Read_rest m_pool L (S idx) lstart c1 dst1 (N.to_nat n)
              (size - n)%N) as [[[ok2 c2] d2] io3| |] eqn:HR; [|done..].
  simpl. intros [= -> -> -> _].
  apply BlockFile_Read_rest_frame in HR as (Hlen2 & _ & Hdrop2); [|lia].
  replace (N.to_nat n + N.to_nat (size - n)) with (N.to_nat size) in Hdrop2 by lia.
  split; [congruence|]. rewrite Hdrop2.
  replace (N.to_nat size) with (0 + N.to_nat n + (N.to_nat size - N.to_nat n)) by lia.
  by rewrite <-(drop_drop dst1 _ (0 + N.to_nat n)), Hdrop1, drop_drop.
Qed.

(** X16.  [BlockFile::Read] stores nothing through [dst] past its first
    [size] bytes: whatever the pool and the index hold, and whether the
    call returns [true] or [false], the buffer keeps its length and its
    bytes from position [size] on. *)
Theorem BlockFile_Read_stays_within_size m_pool f dst size offset ok c' d io :
  (size < 2 ^ 64)%N →
  BlockFile_Read m_pool f dst size offset = Done (ok, c', d) io →
  length d = length dst ∧ drop (N.to_nat size) d = drop (N.to_nat size) dst.
Proof.
  intros H64. unfold BlockFile_Read. case_decide.
  - by intros [= _ _ <- _].
  - by apply BlockFile_Read_seek_frame.
Qed.

(** *** Requests served by the cache *)

Lemma BlockFile_Read_seek_skip m_pool pre L idx lstart c dst size offset :
  (lstart + index_bytes pre ≤ offset)%N → (offset < 2 ^ 64)%N →
  BlockFile_Read_seek m_pool (pre ++ L) idx lstart c dst size offset
  = BlockFile_Read_seek m_pool L (idx + length pre) (lstart + index_bytes pre)
      c dst size offset.
Proof.
  revert idx lstart. induction pre as [|bp pre IH]; intros idx lstart Hle Hoff;
    simpl in *.
  { by rewrite Nat.add_0_r, N.add_0_r. }
  rewrite add64_small by lia. rewrite decide_False by lia.
  rewrite IH by lia. f_equal; lia.
Qed.

(** X17.  A request that lies inside the leaf the cache names is served
    from the cached buffer: no device is read, whatever the pool holds, the
    cache stays as it is, and the bytes stored through [dst] are those of
    the cached buffer at the offset within the leaf.  [pre] is the index
    before that leaf. *)
Theorem BlockFile_Read_from_cache m_pool f pre bp post dst size offset :
  m_bpl f = pre ++ bp :: post →
  cache_bp (m_cache f) = Some (length pre) →
  (index_bytes pre + lsize_bytes bp < 2 ^ 64)%N →
  (index_bytes pre ≤ offset)%N →
  (offset < index_bytes pre + lsize_bytes bp)%N →
  (offset + size ≤ index_bytes pre + lsize_bytes bp)%N →
  (offset + size ≤ m_lsize f)%N →
  N.to_nat (offset - index_bytes pre) + N.to_nat size
    ≤ length (cache_buff (m_cache f)) →
  N.to_nat size ≤ length dst →
  BlockFile_Read m_pool f dst size offset
  = Done (true, m_cache f,
          take (N.to_nat size)
            (drop (N.to_nat (offset - index_bytes pre)) (cache_buff (m_cache f)))
          ++ drop (N.to_nat size) dst) [].
Proof.
  intros Hbpl Hc H64 Hle Hin Hend Hls Hbuf Hdst.
  unfold BlockFile_Read. rewrite add64_small by lia. rewrite decide_False by lia.
  rewrite Hbpl, BlockFile_Read_seek_skip by lia.
  cbn [BlockFile_Read_seek]. rewrite !N.add_0_l, Nat.add_0_l.
  rewrite add64_small by lia. rewrite decide_True by lia.
  unfold refresh. rewrite decide_False by (by intros ?). rewrite bind_ret.
  rewrite !sub64_small by lia.
  rewrite N.min_l by lia.
  rewrite memcpy_ok by (simpl; lia). rewrite bind_ret.
  rewrite N.sub_diag.
  assert (∀ d p, BlockFile_Read_rest m_pool post (S (length pre))
                   (index_bytes pre) (m_cache f) d p 0
                 = Done (true, m_cache f, d) []) as ->.
  { intros d p. destruct post; cbn [BlockFile_Read_rest];
      rewrite decide_False by lia; unfold Read_finish;
      rewrite bool_decide_eq_true_2 by done; by rewrite ASSERT_true, bind_ret. }
  do 2 f_equal. unfold overwrite. simpl. do 2 f_equal.
  rewrite length_take, length_drop. lia.
Qed.

(** *** Requests outside the file *)

(** X18.  On a constructed file whose extents add up within 64 bits, a
    request that starts at or past the end of the file, whatever its size,
    and a request that ends past the end of the file without its end
    leaving 64 bits, return [false] without a device read, with the cache
    and [dst] as they were. *)
Theorem BlockFile_Read_out_of_range fuel m_pool bps f io0 c dst size offset :
  BlockFile_new fuel m_pool bps = Done (Complete f) io0 →
  (index_bytes (m_bpl f) < 2 ^ 64)%N → (offset < 2 ^ 64)%N →
  (index_bytes (m_bpl f) ≤ offset)%N
  ∨ (index_bytes (m_bpl f) < offset + size ∧ offset + size < 2 ^ 64)%N →
  BlockFile_Read m_pool (set_cache f c) dst size offset = Done (false, c, dst) [].
Proof.
  intros Hnew Hlt Hoff Hrange.
  destruct (BlockFile_new_Complete _ _ _ _ _ Hnew) as [Hls _].
  rewrite wrap64_small in Hls by done.
  unfold BlockFile_Read. cbn [set_cache m_lsize m_bpl m_cache].
  case_decide; [done|].
  destruct Hrange as [Hpast|[Hend Hno]].
  - apply BlockFile_Read_seek_past; lia.
  - rewrite add64_small in * by done. lia.
Qed.

End Index.

(** ** Builds with and without assertions *)

Section Builds.
Context `{Externals}.
Implicit Types (bp : blkptr_t) (dst src buff : list byte) (m_pool : Pool).
Implicit Types (c : cache_t).

Lemma ASSERT_debug (b : bool) io :
  debug_build = true → ASSERT b = Done () io → b = true.
Proof. unfold ASSERT. intros ->. by destruct b. Qed.

Lemma Verify_debug buff ct ck b io :
  debug_build = true → Verify buff ct ck = Done b io → b = true.
Proof.
  intros Hd. unfold Verify.
  destruct ct; cbv zeta beta; try (by intros [= <- _]);
    intros ([] & ? & ? & HA%(ASSERT_debug _ _ Hd) & Hk & _)%bind_Done_inv;
    try done; by injection Hk as <- _.
Qed.

Lemma Decompress_debug src dst lsize comp b out io :
  debug_build = true → Decompress src dst lsize comp = Done (b, out) io → b = true.
Proof.
  intros Hd. unfold Decompress.
  destruct comp;
    try (by intros [= <- _ _]);
    try (by intros ([] & ? & ? & _ & [= <- _ _] & _)%bind_Done_inv);
    try (by intros (? & ? & ? & _ & [= <- _ _] & _)%bind_Done_inv).
  intros ([] & ? & ? & HA%(ASSERT_debug _ _ Hd) & _)%bind_Done_inv. done.
Qed.

Lemma Read_vdevs_debug vdevs addr bp dst d io :
  debug_build = true →
  Read_vdevs vdevs addr bp dst = Done (false, d) io →
  io = [] ∧ ∀ vd, vd ∈ vdevs → VirtualDevice.id vd ≠ vdev addr.
Proof.
  intros Hd. revert io. induction vdevs as [|vd vdevs IH]; intros io;
    cbn [Read_vdevs].
  { intros [= _ <-]. split; [done|]. by intros ? ?%elem_of_nil. }
  case_decide as Hid.
  - intros [-> Hrest]%IH. split; [done|].
    intros vd' [->|Hin]%elem_of_cons; [done|]. by apply Hrest.
  - intros (src & io1 & io2 & _ & Hk & _)%bind_Done_inv.
    apply bind_Done_inv in Hk as (ok & io3 & io4 & Hv & Hk & _).
    apply (Verify_debug _ _ _ _ _ Hd) in Hv as ->.
    apply bind_Done_inv in Hk as ([fin dst'] & io5 & io6 & HD & Hk & _).
    apply (Decompress_debug _ _ _ _ _ _ _ Hd) in HD as ->. done.
Qed.

(** X19.  In a build with assertions [Read] returns [false] only when no
    device of the pool is named by any of the three addresses, and then no
    device was read: a copy that fails its checksum or carries a code
    outside the [switch] stops on an assertion, and the copies after it are
    not tried. *)
Theorem Read_debug_false m_pool dst bp d io :
  debug_build = true →
  Read m_pool dst bp = Done (false, d) io →
  io = []
  ∧ ∀ a vd, a ∈ dvas bp → vd ∈ m_vdevs m_pool → VirtualDevice.id vd ≠ vdev a.
Proof.
  intros Hd. unfold Read. generalize (dvas bp). intros addrs. revert dst io.
  induction addrs as [|a addrs IH]; intros dst io; cbn [Read_dvas].
  { intros [= _ <-]. split; [done|]. by intros ? ? ?%elem_of_nil. }
  intros ([] & io1 & io2 & HA & Hk & ->)%bind_Done_inv.
  assert (io1 = []) as ->.
  { unfold ASSERT in HA. destruct (_ && _); [done|]. by injection HA. }
  apply bind_Done_inv in Hk as ([fin dst'] & io3 & io4 & HV & Hk & ->).
  destruct fin; [done|].
  apply (Read_vdevs_debug _ _ _ _ _ _ Hd) in HV as [-> Hhere].
  apply IH in Hk as [-> Hrest]. split; [done|].
  intros a' vd [->|Hin]%elem_of_cons Hvd; [by apply Hhere|by apply Hrest].
Qed.

Lemma Verify_release buff ct ck :
  debug_build = false → ∃ b, Verify buff ct ck = Done b [].
Proof.
  intros Hd. destruct (Verify_cases buff ct ck) as [[b ->]|[Hd' _]];
    [by exists b|congruence].
Qed.

Lemma store_cases dst written d_len :
  (∃ out, store dst written d_len = Done out [])
  ∨ (store dst written d_len = Crash OutOfBounds ∧ length dst < N.to_nat d_len).
Proof.
  unfold store. case_decide as Hl; [left; by eexists|right].
  split; [done|]. rewrite length_take in Hl. lia.
Qed.

Lemma Decompress_release src dst lsize comp :
  debug_build = false →
  (∃ b out, Decompress src dst lsize comp = Done (b, out) []
            ∧ (b = false → out = dst))
  ∨ (Decompress src dst lsize comp = Crash OutOfBounds
     ∧ decodes_in_place comp = true ∧ length dst < N.to_nat lsize).
Proof.
  intros Hd. unfold Decompress.
  destruct comp;
    try (left; by eexists true, src);
    try (match goal with |- context [store ?d ?w ?n] =>
           destruct (store_cases d w n) as [[out ->]|[-> Hlen]] end;
         [left; rewrite bind_Done_nil; by eexists true, out
         |first [by right | rewrite length_resize in Hlen; lia]]).
  left. rewrite ASSERT_release by done. rewrite bind_ret. by eexists false, dst.
Qed.

Lemma Read_vdevs_release vdevs addr bp dst :
  debug_build = false →
  (∃ b out io, Read_vdevs vdevs addr bp dst = Done (b, out) io
               ∧ (b = false → out = dst))
  ∨ (Read_vdevs vdevs addr bp dst = Crash OutOfBounds
     ∧ decodes_in_place (comp_type bp) = true
     ∧ length dst < N.to_nat (lsize_bytes bp)).
Proof.
  intros Hd. induction vdevs as [|vd vdevs IH]; cbn [Read_vdevs].
  { left. by eexists false, dst, []. }
  case_decide; [done|]. unfold vdev_Read. rewrite bind_Done.
  destruct (Verify_release (resize (N.to_nat (psize_bytes bp)) Byte.x00
              (VirtualDevice.Read vd (psize_bytes bp) (shl64 (offset addr) 9)))
              (cksum_type bp) (cksum bp) Hd) as [ok ->].
  rewrite bind_Done_nil. destruct ok.
  - destruct (Decompress_release (resize (N.to_nat (psize_bytes bp)) Byte.x00
                (VirtualDevice.Read vd (psize_bytes bp) (shl64 (offset addr) 9)))
                dst (lsize_bytes bp) (comp_type bp) Hd)
      as [(b & out & -> & Hout)|(-> & ? & ?)]; [|by right].
    rewrite bind_Done_nil. destruct b.
    + left. by eexists true, out, _.
    + rewrite Hout by done.
      destruct IH as [(b & out' & io & -> & ?)|(-> & ? & ?)]; [|by right].
      left. by eexists b, out', _.
  - destruct IH as [(b & out' & io & -> & ?)|(-> & ? & ?)]; [|by right].
    left. by eexists b, out', _.
Qed.

(** X20.  In a build without assertions [Read] always returns, except for
    one fault: a GZIP or ZLE copy decoded into a [dst] that is shorter than
    the logical size of the block, which is a store outside the vector. *)
Theorem Read_release_fault m_pool dst bp :
  debug_build = false →
  (∃ r io, Read m_pool dst bp = Done r io)
  ∨ (Read m_pool dst bp = Crash OutOfBounds
     ∧ decodes_in_place (comp_type bp) = true
     ∧ length dst < N.to_nat (lsize_bytes bp)).
Proof.
  intros Hd. unfold Read. generalize (dvas bp). intros addrs.
  induction addrs as [|a addrs IH]; cbn [Read_dvas].
  { left. by eexists _, _. }
  rewrite ASSERT_release by done. rewrite bind_ret.
  destruct (Read_vdevs_release (m_vdevs m_pool) a bp dst Hd)
    as [(b & out & io & -> & Hout)|(-> & ? & ?)]; [|by right].
  rewrite bind_Done. destruct b.
  - left. by eexists _, _.
  - rewrite Hout by done.
    destruct IH as [(r & io' & ->)|(-> & ? & ?)]; [|by right].
    left. by eexists _, _.
Qed.

(** *** The cache of BlockFile::Read *)

Lemma Read_true_io m_pool dst bp out io :
  Read m_pool dst bp = Done (true, out) io → io ≠ [].
Proof.
  unfold Read. generalize (dvas bp). intros addrs. revert dst io.
  induction addrs as [|a addrs IH]; intros dst io; cbn [Read_dvas]; [done|].
  intros ([] & io1 & io2 & _ & Hk & ->)%bind_Done_inv.
  apply bind_Done_inv in Hk as ([fin dst'] & io3 & io4 & HV & Hk & ->).
  destruct fin.
  - apply Read_vdevs_io in HV as (_ & Hne & _). specialize (Hne eq_refl).
    destruct io1, io3; done.
  - apply IH in Hk. destruct io1, io3, io4; done.
Qed.

Lemma refresh_Done (read : list byte → blkptr_t → outcome (bool * list byte))
    m_pool c idx bp ok c' io :
  (∀ buff b, read buff b = Read m_pool buff b) →
  refresh read c idx bp = Done (ok, c') io →
  (ok = false → c' = c) ∧ (io = [] → c' = c).
Proof.
  intros Hread. unfold refresh. case_decide; [|by intros [= _ <- _]].
  rewrite Hread.
  intros ([okr buff] & io1 & io2 & HR & Hk & ->)%bind_Done_inv.
  destruct okr; simpl in Hk; injection Hk as <- <- <-.
  - split; [done|]. rewrite app_nil_r. intros ->. by apply Read_true_io in HR.
  - apply Read_dvas_false in HR as ->. by destruct c.
Qed.

Lemma BlockFile_Read_rest_cache m_pool L idx lstart c dst p size ok c' d :
  BlockFile_Read_rest m_pool L idx lstart c dst p size = Done (ok, c', d) [] →
  c' = c.
Proof.
  revert idx lstart c dst p size.
  assert (∀ c dst size, Read_finish c dst size = Done (ok, c', d) [] → c' = c)
    as Hfin.
  { intros c dst size. unfold Read_finish.
    intros ([] & ? & ? & _ & [= _ <- _ _] & _)%bind_Done_inv. done. }
  induction L as [|bp L IH]; intros idx lstart c dst p size;
    cbn [BlockFile_Read_rest]; case_decide; try apply Hfin.
  intros ([okr c1] & io1 & io2 & Hr & Hk & Hio)%bind_Done_inv.
  symmetry in Hio. apply app_eq_nil in Hio as [-> ->].
  apply (refresh_Done _ m_pool) in Hr as [Hfalse Hquiet]; [|done].
  rewrite <-Hquiet by done. destruct okr; [|by injection Hk as _ <- _].
  apply bind_Done_inv in Hk as (dst1 & io3 & io4 & _ & Hk & Hio).
  symmetry in Hio. apply app_eq_nil in Hio as [-> ->]. by apply IH in Hk.
Qed.

(** X21.  A [BlockFile::Read] that returns without having read a device
    leaves the cache as it was, the leaf it names and its bytes: the cache
    changes only when a leaf is resolved, and a failed resolution gives the
    cached buffer back untouched. *)
Theorem BlockFile_Read_quiet_keeps_cache m_pool f dst size offset ok c' d :
  BlockFile_Read m_pool f dst size offset = Done (ok, c', d) [] →
  c' = m_cache f.
Proof.
  unfold BlockFile_Read. case_decide; [by intros [= _ <- _]|].
  generalize (m_cache f) 0 0%N. generalize (m_bpl f). intros L c.
  induction L as [|bp L IH]; intros idx lstart; cbn [BlockFile_Read_seek].
  { by intros [= _ <- _]. }
  case_decide; [|apply IH].
  intros ([okr c1] & io1 & io2 & Hr & Hk & Hio)%bind_Done_inv.
  symmetry in Hio. apply app_eq_nil in Hio as [-> ->].
  apply (refresh_Done _ m_pool) in Hr as [Hfalse Hquiet]; [|done].
  rewrite <-Hquiet by done. destruct okr; [|by injection Hk as _ <- _].
  apply bind_Done_inv in Hk as (dst1 & io3 & io4 & _ & Hk & Hio).
  symmetry in Hio. apply app_eq_nil in Hio as [-> ->].
  by apply BlockFile_Read_rest_cache in Hk.
Qed.

End Builds.

(** ** The claims on the concrete pool *)

Section Examples.
Import Example.
#[local] Existing Instance release.

Local Ltac run := vm_compute; reflexivity.

(** *** C1 *)

(** C1.  The first address carries the gang flag, the two others do not
    and hold other bytes.  In a release build [Read] returns [true] with
    the bytes found at the gang-flagged address, after one device read at
    that address; in a build with assertions it stops on the [ASSERT]. *)
Theorem Read_resolves_gang_flagged_address :
  let bp := descriptor (at_sector 0 1 1) (at_sector 0 3 0) (at_sector 0 4 0)
              1 1 0 ZIO_COMPRESS_OFF in
  gang (blk_dva bp).1.1 = 1%N
  ∧ Read (H:=release) pool [] bp = Done (true, sector1) [DevRead 0 512 512]
  ∧ Read (H:=env true) pool [] bp = Crash AssertionFailed.
Proof. split_and!; run. Qed.

(** *** C2 *)

(** C2, counterexample.  [ReadNext] is called with a buffer of 600 bytes on
    a queue holding one indirect descriptor compressed with ZLE.  The
    resolved payload keeps the 600 bytes of the buffer, which is four
    records and 88 bytes more; [ReadNext] inserts the records, resolves the
    live one and returns [true]. *)
Lemma ReadNext_accepts_ragged_payload :
  let root := on_disk 0 1 1 1 ZIO_COMPRESS_ZLE in
  let buff := replicate 600 Byte.xff in
  Read pool buff root = Done (true, sector5 ++ replicate 88 Byte.xff) [DevRead 0 0 512]
  ∧ length (sector5 ++ replicate 88 Byte.xff) `mod` sizeof_blkptr = 88
  ∧ ReadNext 1 pool (BlockStream_new [root]) buff
    = Done (true, sector1, []) [DevRead 0 0 512; DevRead 0 512 512].
Proof. split_and!; run. Qed.

(** The same call, as an instance of [indirect_payload_truncated]: four
    whole records and a tail of 88 bytes. *)
Lemma indirect_payload_truncated_witness :
  ReadNext_descend 1 pool (on_disk 0 1 1 1 ZIO_COMPRESS_ZLE) []
    (replicate 600 Byte.xff)
  = after [DevRead 0 0 512]
      match Insert (blkptr_array sector5 4) [] with
      | [] => Crash FrontOfEmptyList
      | bp' :: q' =>
          ReadNext_descend 0 pool bp' q' (sector5 ++ replicate 88 Byte.xff)
      end.
Proof.
  apply (indirect_payload_truncated 0 pool (on_disk 0 1 1 1 ZIO_COMPRESS_ZLE) []
           (replicate 600 Byte.xff) sector5 (replicate 88 Byte.xff) 4
           [DevRead 0 0 512]).
  - vm_compute. lia.
  - reflexivity.
  - reflexivity.
  - vm_compute. lia.
  - run.
Defined.

(** *** C3 *)

(** C3, counterexample.  The queue holds a leaf that resolves and a leaf
    none of whose addresses names a device of the pool.  The second
    [ReadNext] fails on the resolution, with the queue not exhausted
    before the call; [ReadToEnd] returns [true], and [dst] holds the first
    chunk. *)
Lemma ReadToEnd_true_after_failed_resolution :
  let lost := descriptor nowhere nowhere nowhere 1 1 0 ZIO_COMPRESS_OFF in
  let q := BlockStream_new [on_disk 1 1 1 0 ZIO_COMPRESS_OFF; lost] in
  ReadNext 2 pool q [] = Done (true, sector1, [lost]) [DevRead 0 512 512]
  ∧ Read pool sector1 lost = Done (false, sector1) []
  ∧ ReadNext 2 pool [lost] sector1 = Done (false, sector1, []) []
  ∧ ReadToEnd 2 pool q [] = Done (true, sector1, []) [DevRead 0 512 512].
Proof. split_and!; run. Qed.

(** The same queue, as an instance of [ReadToEnd_stops_at_first_false]: one
    chunk, then a [false]. *)
Lemma ReadToEnd_stops_at_first_false_witness :
  ∃ io, ReadToEnd 2 pool
          (BlockStream_new [on_disk 1 1 1 0 ZIO_COMPRESS_OFF;
                            descriptor nowhere nowhere nowhere 1 1 0 ZIO_COMPRESS_OFF])
          []
        = Done (true, concat [sector1], []) io.
Proof.
  apply (ReadToEnd_stops_at_first_false 2 pool _ [sector1] [] []).
  - eapply (reads_chunk 2 pool _ [] sector1
              [descriptor nowhere nowhere nowhere 1 1 0 ZIO_COMPRESS_OFF]
              [DevRead 0 512 512]); [run|].
    eapply (reads_stop 2 pool _ sector1 sector1 [] []). run.
  - simpl. lia.
Defined.

(** *** C4 *)

(** A leaf on the disk whose compression code is 200. *)
Lemma Read_unrecognized_code_fails_witness :
  refused [] (Read pool [] (on_disk 1 1 1 0 (ZIO_COMPRESS_other 200)))
  ∧ (debug_build = false →
     ∃ io, Read pool [] (on_disk 1 1 1 0 (ZIO_COMPRESS_other 200))
           = Done (false, []) io).
Proof.
  apply (Read_unrecognized_code_fails pool [] (on_disk 1 1 1 0 (ZIO_COMPRESS_other 200))).
  right. exists 200%N. reflexivity.
Defined.

(** *** C5 *)

(** C5, counterexample.  Two leaves stored uncompressed; the first is two
    sectors long physically and declares one logical sector.  Every
    resolution succeeds.  [ReadToEnd] returns three sectors; the file has
    a total logical size of 1024, and its [Read] of 512 bytes at offset 512
    returns the bytes of the second leaf, which are not the bytes
    [512, 1024) of what [ReadToEnd] returned. *)
Lemma BlockFile_Read_differs_from_ReadToEnd :
  let bps := [on_disk 3 2 1 0 ZIO_COMPRESS_OFF; on_disk 1 1 1 0 ZIO_COMPRESS_OFF] in
  let f := {| m_bpl := bps; m_psize := 1536; m_lsize := 1024;
              m_cache := fresh_cache |} in
  let data := sector3 ++ sector4 ++ sector1 in
  BlockFile_new 2 pool bps
  = Done (Complete f) []
  ∧ ReadToEnd 3 pool (BlockStream_new bps) []
    = Done (true, data, []) [DevRead 0 1536 1024; DevRead 0 512 512]
  ∧ BlockFile_Read pool f (replicate 512 Byte.x00) 512 512
    = Done (true, {| cache_bp := Some 1; cache_buff := sector1 |}, sector1)
           [DevRead 0 512 512]
  ∧ take 512 (drop 512 data) = sector4
  ∧ sector1 ≠ sector4.
Proof.
  split_and!; try run.
  intros E. apply (f_equal (λ l : list byte, l !! 0)) in E. vm_compute in E.
  discriminate.
Qed.

(** An indirect root, stored as it is in sector 5, whose one live record is
    the leaf at sector 1, followed by a leaf root at sector 3; the 512
    bytes read at offset 256 straddle the two leaves. *)
Lemma BlockFile_Read_agrees_with_ReadToEnd_witness :
  let bps := [on_disk 5 1 1 1 ZIO_COMPRESS_OFF; on_disk 3 1 1 0 ZIO_COMPRESS_OFF] in
  let L := [on_disk 1 1 1 0 ZIO_COMPRESS_OFF; on_disk 3 1 1 0 ZIO_COMPRESS_OFF] in
  let P := [sector1; sector3] in
  let dst := replicate 600 Byte.xff in
  ∃ fuel f io1 io2 io3 c',
    BlockFile_new fuel pool bps = Done (Complete f) io1
    ∧ m_bpl f = L ∧ m_lsize f = index_bytes L
    ∧ ReadToEnd fuel pool (BlockStream_new bps) [] = Done (true, concat P, []) io2
    ∧ BlockFile_Read pool (set_cache f fresh_cache) dst 512 256
      = Done (true, c',
              take (N.to_nat 512) (drop (N.to_nat 256) (concat P))
              ++ drop (N.to_nat 512) dst) io3
    ∧ cache_ok pool L c'.
Proof.
  intros bps L P dst.
  apply (BlockFile_Read_agrees_with_ReadToEnd pool bps L P fresh_cache dst 512 256).
  - eapply (flattens_node pool _ _ sector5 (on_disk 1 1 1 0 ZIO_COMPRESS_OFF)
              [on_disk 3 1 1 0 ZIO_COMPRESS_OFF]).
    + reflexivity.
    + intros buff. exists [DevRead 0 2560 512]. run.
    + run.
    + apply flattens_leaf; [reflexivity|].
      apply flattens_leaf; [reflexivity|]. apply flattens_nil.
  - constructor; [|constructor; [|constructor]].
    + split; [|run]. intros buff. exists [DevRead 0 512 512]. run.
    + split; [|run]. intros buff. exists [DevRead 0 1536 512]. run.
  - run.
  - intros i [=].
  - vm_compute. discriminate.
  - run.
  - vm_compute. lia.
Defined.

(** *** C6 *)

(** C6.  A file of one leaf, 512 bytes long, is asked for [2^64 - 1] bytes
    at offset 1.  The sum wraps to 0, the range check passes, the leaf is
    read from the device and 511 of its bytes are stored through [dst]
    before [Read] returns [false]. *)
Theorem BlockFile_Read_range_check_wraps :
  let bps := [on_disk 1 1 1 0 ZIO_COMPRESS_OFF] in
  let f := {| m_bpl := bps; m_psize := 512; m_lsize := 512;
              m_cache := fresh_cache |} in
  BlockFile_new 1 pool bps = Done (Complete f) []
  ∧ (m_lsize f < 1 + (2 ^ 64 - 1))%N
  ∧ add64 1 (2 ^ 64 - 1) = 0%N
  ∧ BlockFile_Read pool f (replicate 600 Byte.xff) (2 ^ 64 - 1) 1
    = Done (false, {| cache_bp := Some 0; cache_buff := sector1 |},
            replicate 511 Byte.x41 ++ replicate 89 Byte.xff)
           [DevRead 0 512 512].
Proof. split_and!; run. Qed.

(** *** C7 *)

(** An unused slot and a live record inserted ahead of a pending leaf. *)
Lemma Insert_drops_NONE_witness :
  Insert [parse (take 128 sector2); on_disk 1 1 1 0 ZIO_COMPRESS_OFF]
         [on_disk 3 1 1 0 ZIO_COMPRESS_OFF]
  = filter live [parse (take 128 sector2); on_disk 1 1 1 0 ZIO_COMPRESS_OFF]
    ++ [on_disk 3 1 1 0 ZIO_COMPRESS_OFF].
Proof. apply (proj1 Insert_drops_NONE). Defined.

(** *** C8 *)

(** C8, counterexample.  1024 bytes stored with the code OFF under a
    declared logical size of 512 bytes decode successfully to 1024
    bytes. *)
Lemma Decompress_OFF_ignores_declared_size :
  length (replicate 1024 Byte.x41) ≠ N.to_nat 512
  ∧ Decompress (replicate 1024 Byte.x41) [] 512 ZIO_COMPRESS_OFF
    = Done (true, replicate 1024 Byte.x41) [].
Proof. split; [vm_compute; lia|run]. Qed.

(** The same bytes under the code EMPTY. *)
Lemma Decompress_OFF_EMPTY_identity_witness :
  Decompress (replicate 1024 Byte.x41) [] 512 ZIO_COMPRESS_EMPTY
  = Done (true, replicate 1024 Byte.x41) [].
Proof.
  apply (Decompress_OFF_EMPTY_identity (replicate 1024 Byte.x41) [] 512
           ZIO_COMPRESS_EMPTY).
  right. reflexivity.
Defined.

(** *** C9 *)

(** C9.  The only pending descriptor is indirect and resolves to a sector
    of zeros, that is, to four slots of type NONE.  [Insert] drops them
    all, and the [front()] that follows, in [ReadNext] as in the
    constructor of [BlockFile], is taken on an empty list. *)
Theorem front_of_empty_queue_after_expansion :
  let root := on_disk 2 1 1 1 ZIO_COMPRESS_OFF in
  Read pool [] root = Done (true, sector2) [DevRead 0 1024 512]
  ∧ Insert (blkptr_array sector2 (length sector2 `div` sizeof_blkptr)) [] = []
  ∧ (∀ fuel, ReadNext (S fuel) pool (BlockStream_new [root]) []
             = Crash FrontOfEmptyList)
  ∧ (∀ fuel, BlockFile_new (S fuel) pool [root] = Crash FrontOfEmptyList).
Proof. split_and!; try intros fuel; run. Qed.

(** *** C10 *)

(** A file of one leaf of 512 bytes: a read of no bytes at offset 100, and
    at offset 512. *)
Lemma zero_length_read_witness :
  let bps := [on_disk 1 1 1 0 ZIO_COMPRESS_OFF] in
  let f := {| m_bpl := bps; m_psize := 512; m_lsize := 512;
              m_cache := fresh_cache |} in
  let dst := replicate 8 Byte.xff in
  (∃ c' io, BlockFile_Read pool (set_cache f fresh_cache) dst 0 100
            = Done (true, c', dst) io)
  ∧ BlockFile_Read pool (set_cache f fresh_cache) dst 0 512
    = Done (false, fresh_cache, dst) [].
Proof.
  intros bps f dst.
  assert (BlockFile_new 1 pool bps = Done (Complete f) []) as Hnew by run.
  assert (∀ bp buff, bp ∈ m_bpl f →
            ∃ out io, Read pool buff bp = Done (true, out) io) as Hleaves.
  { intros bp buff ->%list_elem_of_singleton.
    exists sector1, [DevRead 0 512 512]. run. }
  split.
  - apply (zero_length_read 1 pool bps f [] fresh_cache dst 100 Hnew Hleaves);
      reflexivity.
  - apply (zero_length_read 1 pool bps f [] fresh_cache dst 512 Hnew Hleaves);
      reflexivity.
Defined.

(** The empty file: construction completes with a total logical size of 0,
    and the read of no bytes at offset 0 returns [false]. *)
Example zero_length_read_empty_file :
  let f := {| m_bpl := []; m_psize := 0; m_lsize := 0; m_cache := fresh_cache |} in
  BlockFile_new 0 pool [] = Done (Complete f) []
  ∧ BlockFile_Read pool f [] 0 0 = Done (false, fresh_cache, []) [].
Proof. split; run. Qed.

End Examples.

(** ** The further properties on the concrete pool *)

Section Instances.
Import Example.
#[local] Existing Instance release.

Local Ltac run := vm_compute; reflexivity.
Local Ltac arith := vm_compute; first [reflexivity | discriminate | lia].

(** Sector 0 decoded with ZLE into a buffer of 600 bytes. *)
Lemma Decompress_result_witness :
  let dst := replicate 600 Byte.xff in
  let out := sector5 ++ replicate 88 Byte.xff in
  Decompress sector0 dst 512 ZIO_COMPRESS_ZLE = Done (true, out) []
  ∧ (@nil io_event) = [] ∧ true = true ∧ length out = length dst.
Proof.
  intros dst out. split; [run|].
  apply (Decompress_result sector0 dst 512 ZIO_COMPRESS_ZLE true out []). run.
Defined.

Lemma Decompress_LZJB_total_witness :
  ∃ out, Decompress sector1 [] 512 ZIO_COMPRESS_LZJB = Done (true, out) []
         ∧ length out = N.to_nat 512.
Proof.
  apply (Decompress_LZJB_total sector1 [] 512 ZIO_COMPRESS_LZJB).
  right. reflexivity.
Defined.

(** A leaf on the disk whose compression code is 200: each of its three
    copies is read and refused. *)
Lemma Read_false_keeps_dst_witness :
  let bp := on_disk 1 1 1 0 (ZIO_COMPRESS_other 200) in
  let dst := replicate 8 Byte.xff in
  ∃ d io, Read pool dst bp = Done (false, d) io ∧ d = dst.
Proof.
  intros bp dst.
  assert (Read pool dst bp = Done (false, dst) (replicate 3 (DevRead 0 512 512)))
    as HR by run.
  exists dst, (replicate 3 (DevRead 0 512 512)).
  split; [exact HR|]. exact (Read_false_keeps_dst pool dst bp dst _ HR).
Defined.

Lemma Read_reads_named_copies_witness :
  let bp := on_disk 1 1 1 0 ZIO_COMPRESS_OFF in
  let io := [DevRead 0 512 512] in
  Read pool [] bp = Done (true, sector1) io
  ∧ Forall (reads_copy pool bp) io
  ∧ length io ≤ 3 * length (m_vdevs pool)
  ∧ ((true, sector1).1 = true → io ≠ []).
Proof.
  intros bp io. split; [run|]. apply (Read_reads_named_copies pool [] bp (true, sector1) io). run.
Defined.

(** The pool has no device 7. *)
Lemma Read_without_device_witness :
  let bp := descriptor nowhere nowhere nowhere 1 1 0 ZIO_COMPRESS_OFF in
  Read pool (replicate 8 Byte.xff) bp = Done (false, replicate 8 Byte.xff) [].
Proof.
  intros bp. apply (Read_without_device pool (replicate 8 Byte.xff) bp).
  - left. reflexivity.
  - intros a vd Ha Hvd. apply list_elem_of_singleton in Hvd as ->.
    apply list_elem_of_In in Ha. simpl in Ha. intros Hid.
    destruct Ha as [<-|[<-|[<-|[]]]]; discriminate Hid.
Defined.

Lemma Read_payload_length_witness :
  Read pool [] (on_disk 1 1 1 0 ZIO_COMPRESS_OFF)
  = Done (true, sector1) [DevRead 0 512 512]
  ∧ length sector1 = N.to_nat (psize_bytes (on_disk 1 1 1 0 ZIO_COMPRESS_OFF)).
Proof.
  split; [run|].
  apply (Read_payload_length pool [] (on_disk 1 1 1 0 ZIO_COMPRESS_OFF) sector1
           [DevRead 0 512 512]).
  run.
Defined.

Lemma Read_swap_ignores_buffer_witness :
  let bp := on_disk 1 1 1 0 ZIO_COMPRESS_OFF in
  let d2 := replicate 8 Byte.xff in
  Read pool d2 bp = with_buffer d2 (Read pool [] bp)
  ∧ (∀ out io, Read pool [] bp = Done (true, out) io → resolves_to pool bp out).
Proof.
  intros bp d2. apply (Read_swap_ignores_buffer pool bp [] d2). left. reflexivity.
Defined.

(** The front of the queue names no device of the pool. *)
Lemma ReadNext_failed_resolution_witness :
  let bp := descriptor nowhere nowhere nowhere 1 1 0 ZIO_COMPRESS_OFF in
  let q := [on_disk 1 1 1 0 ZIO_COMPRESS_OFF] in
  let buff := replicate 8 Byte.xff in
  ReadNext 1 pool (bp :: q) buff = Done (false, buff, q) [].
Proof.
  intros bp q buff. apply (ReadNext_failed_resolution 0 pool bp q buff buff []). run.
Defined.

(** An indirect descriptor over a sector of zeros, followed by a leaf. *)
Lemma expansion_without_live_record_witness :
  let bp := on_disk 2 1 1 1 ZIO_COMPRESS_OFF in
  let leaf := on_disk 1 1 1 0 ZIO_COMPRESS_OFF in
  let io := [DevRead 0 1024 512] in
  ReadNext 2 pool [bp; leaf] [] = after io (ReadNext 1 pool [leaf] sector2)
  ∧ (@nil byte = [] →
     BlockFile_descend 2 pool bp [leaf] = after io (BlockFile_descend 1 pool leaf [])).
Proof.
  intros bp leaf io.
  apply (expansion_without_live_record 1 pool bp [leaf] [] sector2 io).
  - reflexivity.
  - run.
  - run.
Defined.

(** A leaf that resolves, then a leaf that does not. *)
Lemma ReadToEnd_completed_witness :
  let q := [on_disk 1 1 1 0 ZIO_COMPRESS_OFF;
            descriptor nowhere nowhere nowhere 1 1 0 ZIO_COMPRESS_OFF] in
  ReadToEnd 2 pool q [] = Done (true, sector1, []) [DevRead 0 512 512]
  ∧ true = true
  ∧ ∃ chunks, reads 2 pool q [] chunks [] ∧ sector1 = concat chunks.
Proof.
  intros q. split; [run|].
  apply (ReadToEnd_completed 2 pool q [] true sector1 [] [DevRead 0 512 512]). run.
Defined.

(** An indirect descriptor over sector 5 and a leaf: two leaves in all. *)
Lemma ReadToEnd_flattened_witness :
  let q := [on_disk 5 1 1 1 ZIO_COMPRESS_OFF; on_disk 3 1 1 0 ZIO_COMPRESS_OFF] in
  let L := [on_disk 1 1 1 0 ZIO_COMPRESS_OFF; on_disk 3 1 1 0 ZIO_COMPRESS_OFF] in
  let P := [sector1; sector3] in
  ∃ k, ∀ fuel, k ≤ fuel →
    ∃ io1 io2,
      ReadToEnd fuel pool q [] = Done (true, concat P, []) io1
      ∧ ReadToEnd fuel pool L [] = Done (true, concat P, []) io2.
Proof.
  intros q L P. apply (ReadToEnd_flattened pool q L P []).
  - eapply (flattens_node pool _ _ sector5 (on_disk 1 1 1 0 ZIO_COMPRESS_OFF)
              [on_disk 3 1 1 0 ZIO_COMPRESS_OFF]).
    + reflexivity.
    + intros buff. exists [DevRead 0 2560 512]. run.
    + run.
    + apply flattens_leaf; [reflexivity|].
      apply flattens_leaf; [reflexivity|]. apply flattens_nil.
  - constructor; [|constructor; [|constructor]].
    + intros buff. exists [DevRead 0 512 512]. run.
    + intros buff. exists [DevRead 0 1536 512]. run.
Defined.

Lemma BlockFile_new_index_witness :
  let bps := [on_disk 5 1 1 1 ZIO_COMPRESS_OFF; on_disk 3 1 1 0 ZIO_COMPRESS_OFF] in
  let L := [on_disk 1 1 1 0 ZIO_COMPRESS_OFF; on_disk 3 1 1 0 ZIO_COMPRESS_OFF] in
  let f := {| m_bpl := L; m_psize := 1024; m_lsize := 1024;
              m_cache := fresh_cache |} in
  Forall (λ bp, lvl bp = 0%N) (m_bpl f)
  ∧ m_lsize f = wrap64 (index_bytes (m_bpl f))
  ∧ m_psize f = wrap64 (physical_bytes (m_bpl f))
  ∧ ((index_bytes (m_bpl f) < 2 ^ 64)%N → m_lsize f = index_bytes (m_bpl f))
  ∧ m_cache f = fresh_cache.
Proof.
  intros bps L f. apply (BlockFile_new_index 2 pool bps f [DevRead 0 2560 512]). run.
Defined.

(** Two level-0 roots, the second of which names no device of the pool. *)
Lemma BlockFile_new_of_leaves_witness :
  let bps := [on_disk 1 1 1 0 ZIO_COMPRESS_OFF;
              descriptor nowhere nowhere nowhere 1 1 0 ZIO_COMPRESS_OFF] in
  ∃ f, BlockFile_new 2 pool bps = Done (Complete f) []
       ∧ m_bpl f = filter live bps.
Proof.
  intros bps. apply (BlockFile_new_of_leaves 2 pool bps).
  - constructor; [reflexivity|]. constructor; [reflexivity|]. constructor.
  - simpl. lia.
Defined.

(** Four bytes at offset 100 of a one-leaf file, into a buffer of eight. *)
Lemma BlockFile_Read_stays_within_size_witness :
  let f := {| m_bpl := [on_disk 1 1 1 0 ZIO_COMPRESS_OFF]; m_psize := 512;
              m_lsize := 512; m_cache := fresh_cache |} in
  let dst := replicate 8 Byte.xff in
  let d := replicate 4 Byte.x41 ++ replicate 4 Byte.xff in
  BlockFile_Read pool f dst 4 100
  = Done (true, {| cache_bp := Some 0; cache_buff := sector1 |}, d)
      [DevRead 0 512 512]
  ∧ length d = length dst ∧ drop (N.to_nat 4) d = drop (N.to_nat 4) dst.
Proof.
  intros f dst d. split; [run|].
  apply (BlockFile_Read_stays_within_size pool f dst 4 100 true
           {| cache_bp := Some 0; cache_buff := sector1 |} d [DevRead 0 512 512]).
  - arith.
  - run.
Defined.

(** The cache holds the second leaf of a two-leaf file; four bytes are
    asked at offset 600, which is offset 88 of that leaf. *)
Lemma BlockFile_Read_from_cache_witness :
  let pre := [on_disk 3 1 1 0 ZIO_COMPRESS_OFF] in
  let bp := on_disk 1 1 1 0 ZIO_COMPRESS_OFF in
  let f := {| m_bpl := pre ++ [bp]; m_psize := 1024; m_lsize := 1024;
              m_cache := {| cache_bp := Some 1; cache_buff := sector1 |} |} in
  let dst := replicate 8 Byte.xff in
  BlockFile_Read pool f dst 4 600
  = Done (true, m_cache f,
          take (N.to_nat 4)
            (drop (N.to_nat (600 - index_bytes pre)) (cache_buff (m_cache f)))
          ++ drop (N.to_nat 4) dst) [].
Proof.
  intros pre bp f dst.
  apply (BlockFile_Read_from_cache pool f pre bp [] dst 4 600);
    first [reflexivity | arith].
Defined.

(** Ten bytes asked at the end of a one-leaf file. *)
Lemma BlockFile_Read_out_of_range_witness :
  let bps := [on_disk 1 1 1 0 ZIO_COMPRESS_OFF] in
  let f := {| m_bpl := bps; m_psize := 512; m_lsize := 512;
              m_cache := fresh_cache |} in
  let dst := replicate 8 Byte.xff in
  BlockFile_Read pool (set_cache f fresh_cache) dst 10 512
  = Done (false, fresh_cache, dst) [].
Proof.
  intros bps f dst.
  apply (BlockFile_Read_out_of_range 1 pool bps f [] fresh_cache dst 10 512).
  - run.
  - arith.
  - arith.
  - left. arith.
Defined.

(** The same descriptor without a device, in a build with assertions. *)
Lemma Read_debug_false_witness :
  let bp := descriptor nowhere nowhere nowhere 1 1 0 ZIO_COMPRESS_OFF in
  Read (H:=env true) pool (replicate 8 Byte.xff) bp
  = Done (false, replicate 8 Byte.xff) []
  ∧ (@nil io_event) = []
  ∧ ∀ a vd, a ∈ dvas bp → vd ∈ m_vdevs pool → VirtualDevice.id vd ≠ vdev a.
Proof.
  intros bp. split; [run|].
  apply (Read_debug_false (H:=env true) pool (replicate 8 Byte.xff) bp
           (replicate 8 Byte.xff) []).
  - reflexivity.
  - run.
Defined.

(** Sector 0 decoded with ZLE into an empty vector. *)
Lemma Read_release_fault_witness :
  let bp := on_disk 0 1 1 0 ZIO_COMPRESS_ZLE in
  (∃ r io, Read pool [] bp = Done r io)
  ∨ (Read pool [] bp = Crash OutOfBounds
     ∧ decodes_in_place (comp_type bp) = true
     ∧ length (@nil byte) < N.to_nat (lsize_bytes bp)).
Proof.
  intros bp. apply (Read_release_fault pool [] bp). reflexivity.
Defined.

(** A file whose only leaf names no device of the pool. *)
Lemma BlockFile_Read_quiet_keeps_cache_witness :
  let f := {| m_bpl := [descriptor nowhere nowhere nowhere 1 1 0 ZIO_COMPRESS_OFF];
              m_psize := 512; m_lsize := 512; m_cache := fresh_cache |} in
  BlockFile_Read pool f (replicate 8 Byte.xff) 4 0
  = Done (false, fresh_cache, replicate 8 Byte.xff) []
  ∧ fresh_cache = m_cache f.
Proof.
  intros f. split; [run|].
  apply (BlockFile_Read_quiet_keeps_cache pool f (replicate 8 Byte.xff) 4 0 false
           fresh_cache (replicate 8 Byte.xff)).
  run.
Defined.

End Instances.
